(** * Subset construction of script.js: NFA with epsilon moves to DFA

    A shallow embedding of [epsilonClosure], [stateSetToString] and
    [convertNFAtoDFA] from [src/script.js], and the properties of the
    specification proved about it.

    Modelling conventions.
    - State identifiers and alphabet symbols are JavaScript strings; they are
      modelled as [string].  [Array.prototype.sort()] without a comparator
      orders strings by their code units, which on [string] is the
      lexicographic order of [String.leb].
    - A plain JavaScript object used as a dictionary is a [gmap] of its own
      properties.  The first parts work on these tables alone.  The part on
      the prototype chain adds what [obj[key]] finds on [Object.prototype],
      shows where the code departs from the tables, and that the two agree
      when no state and no symbol is the name of an inherited property.
    - A JavaScript [Set] and [Map] iterate in insertion order: they are
      modelled as a duplicate-free list and as an association list.
    - Every [while] loop is a function on a step counter ([fuel]) whose
      result says whether the loop ended; the loops are proved to end. *)

From Stdlib Require Import String Ascii.
From stdpp Require Import base option list sorting gmap strings.

(** ** Data model *)

(** [{state: {symbol: [nextStates]}}] *)
Abbreviation Transitions := (gmap string (gmap string (list string))).

Module NFA.
Record t := mk {
  states : list string;
  alphabet : list string;
  transitions : Transitions;
  startState : string;
  acceptStates : gset string
}.
End NFA.

Module DFA.
Record t := mk {
  states : list string;
  alphabet : list string;
  transitions : gmap string (gmap string string);
  startState : string;
  acceptStates : list string
}.
End DFA.

(** What running a loop for a bounded number of iterations gives: the value
    it ends with, a [TypeError] thrown on the way (a method called on
    [undefined]), or no answer within the given number of iterations. *)
Inductive result (A : Type) : Type :=
| Ok (a : A)
| TypeError
| OutOfFuel.
Arguments Ok {A} a.
Arguments TypeError {A}.
Arguments OutOfFuel {A}.

(** ** JavaScript containers *)

(** [Set.prototype.has] and [Set.prototype.add] on a set kept in insertion
    order, and [new Set(array)]. *)
Definition set_has (s : list string) (x : string) : bool := bool_decide (x ∈ s).

Definition set_add (s : list string) (x : string) : list string :=
  if set_has s x then s else s ++ [x].

Definition new_Set (xs : list string) : list string := foldl set_add [] xs.

(** [Map.prototype.get], [has] and [set] on a map kept in insertion order. *)
Fixpoint Map_get (m : list (string * list string)) (k : string)
  : option (list string) :=
  match m with
  | [] => None
  | (k', v) :: m' => if String.eqb k' k then Some v else Map_get m' k
  end.

Definition Map_has (m : list (string * list string)) (k : string) : bool :=
  match Map_get m k with Some _ => true | None => false end.

Fixpoint Map_set (m : list (string * list string)) (k : string)
  (v : list string) : list (string * list string) :=
  match m with
  | [] => [(k, v)]
  | (k', v') :: m' =>
      if String.eqb k' k then (k', v) :: m' else (k', v') :: Map_set m' k v
  end.

(** [Array.from(map.keys())] *)
Definition Map_keys (m : list (string * list string)) : list string := m.*1.

(** ** Sorting and the canonical key *)

(** The order of the default [sort()]. *)
Definition str_le (a b : string) : Prop := String.leb a b = true.

Global Instance str_le_dec : RelDecision str_le.
Proof. intros a b. unfold str_le. apply _. Defined.

(** [states.sort()]: the array is sorted in place, so the caller's array is
    the sorted one afterwards. *)
Definition sort (xs : list string) : list string := merge_sort str_le xs.

(** [array.join(sep)] *)
Fixpoint join (sep : string) (xs : list string) : string :=
  match xs with
  | [] => ""
  | [x] => x
  | x :: rest => x +:+ sep +:+ join sep rest
  end.

Definition stateSetToString (states : list string) : string :=
  "{" +:+ join "," (sort states) +:+ "}".

(** ** epsilonClosure *)

(** [transitions[state]?.[symbol] || []] *)
Definition dests (T : Transitions) (state symbol : string) : list string :=
  default [] (T !! state ≫= λ m, m !! symbol).

(** The body of [for (const nextState of epsilonStates)].  The stack is kept
    with its top at the head of the list. *)
Definition visit (cs : list string * list string) (nextState : string)
  : list string * list string :=
  if set_has cs.1 nextState then cs
  else (cs.1 ++ [nextState], nextState :: cs.2).

(** [while (stack.length > 0)] *)
Fixpoint closure_loop (fuel : nat) (T : Transitions)
  (closure stack : list string) : result (list string) :=
  match stack with
  | [] => Ok closure
  | state :: rest =>
      match fuel with
      | O => OutOfFuel
      | S fuel' =>
          let cs := foldl visit (closure, rest) (dests T state "") in
          closure_loop fuel' T cs.1 cs.2
      end
  end.

(** All states that occur as the destination of an epsilon move. *)
Definition eps_targets (T : Transitions) : list string :=
  map_to_list T ≫= λ sm, default [] (sm.2 !! "").

(** A number of iterations the loop of [epsilonClosure] never exceeds
    ([closure_loop_ends] below). *)
Definition closure_fuel (states : list string) (T : Transitions) : nat :=
  length states + length (eps_targets T).

Definition epsilonClosure_run (states : list string) (T : Transitions)
  : result (list string) :=
  closure_loop (closure_fuel states T) T (new_Set states) (reverse states).

Definition epsilonClosure (states : list string) (T : Transitions)
  : list string :=
  match epsilonClosure_run states T with
  | Ok closure => closure
  | _ => []
  end.

(** ** convertNFAtoDFA *)

Record LoopState := mkLoop {
  dfaStates : list (string * list string);
  dfaTransitions : gmap string (gmap string string);
  dfaAcceptStates : list string;
  dfaQueue : list string
}.

(** [epsilonClosure(currentNfaStates.flatMap(...), nfa.transitions)] *)
Definition nextStates (nfa : NFA.t) (currentNfaStates : list string)
  (symbol : string) : list string :=
  epsilonClosure
    (currentNfaStates ≫= λ state, dests (NFA.transitions nfa) state symbol)
    (NFA.transitions nfa).

(** The body of [for (const symbol of nfa.alphabet)]. *)
Definition on_symbol (nfa : NFA.t) (currentDfaState : string)
  (currentNfaStates : list string) (st : LoopState) (symbol : string)
  : LoopState :=
  let nextNfaStates := nextStates nfa currentNfaStates symbol in
  if bool_decide (0 < length nextNfaStates) then
    let nextDfaState := stateSetToString nextNfaStates in
    let st' :=
      if negb (Map_has (dfaStates st) nextDfaState) then
        mkLoop (Map_set (dfaStates st) nextDfaState (sort nextNfaStates))
               (dfaTransitions st) (dfaAcceptStates st)
               (dfaQueue st ++ [nextDfaState])
      else st in
    mkLoop (dfaStates st')
           (alter (λ m, <[symbol := nextDfaState]> m) currentDfaState
              (dfaTransitions st'))
           (dfaAcceptStates st') (dfaQueue st')
  else st.

(** The head of an iteration of [while (dfaQueue.length > 0)], after
    [dfaQueue.shift()] gave [currentDfaState] and left [rest]: the accept
    check and [dfaTransitions[currentDfaState] = {}]. *)
Definition enter (nfa : NFA.t) (currentDfaState : string)
  (rest : list string) (currentNfaStates : list string) (st : LoopState)
  : LoopState :=
  let accept :=
    if existsb (λ state, bool_decide (state ∈ NFA.acceptStates nfa))
         currentNfaStates
    then set_add (dfaAcceptStates st) currentDfaState
    else dfaAcceptStates st in
  mkLoop (dfaStates st) (<[currentDfaState := ∅]> (dfaTransitions st))
    accept rest.

(** One whole iteration: the head, then the [for] over the alphabet. *)
Definition iteration (nfa : NFA.t) (currentDfaState : string)
  (rest : list string) (currentNfaStates : list string) (st : LoopState)
  : LoopState :=
  foldl (on_symbol nfa currentDfaState currentNfaStates)
    (enter nfa currentDfaState rest currentNfaStates st)
    (NFA.alphabet nfa).

Fixpoint while_loop (fuel : nat) (nfa : NFA.t) (st : LoopState)
  : result LoopState :=
  match dfaQueue st with
  | [] => Ok st
  | currentDfaState :: rest =>
      match fuel with
      | O => OutOfFuel
      | S fuel' =>
          match Map_get (dfaStates st) currentDfaState with
          | None => TypeError
          | Some currentNfaStates =>
              while_loop fuel' nfa
                (iteration nfa currentDfaState rest currentNfaStates st)
          end
      end
  end.

(** [startStateKey] *)
Definition startKey (nfa : NFA.t) : string :=
  stateSetToString
    (epsilonClosure [NFA.startState nfa] (NFA.transitions nfa)).

(** The state in which the loop is entered. *)
Definition init (nfa : NFA.t) : LoopState :=
  let startState := epsilonClosure [NFA.startState nfa] (NFA.transitions nfa) in
  let startStateKey := stateSetToString startState in
  mkLoop (Map_set [] startStateKey (sort startState)) ∅ [] [startStateKey].

Definition run (fuel : nat) (nfa : NFA.t) : result LoopState :=
  while_loop fuel nfa (init nfa).

Definition to_DFA (nfa : NFA.t) (st : LoopState) : DFA.t :=
  DFA.mk (Map_keys (dfaStates st)) (NFA.alphabet nfa) (dfaTransitions st)
    (startKey nfa) (dfaAcceptStates st).

Definition convertNFAtoDFA (fuel : nat) (nfa : NFA.t) : result DFA.t :=
  match run fuel nfa with
  | Ok st => Ok (to_DFA nfa st)
  | TypeError => TypeError
  | OutOfFuel => OutOfFuel
  end.

(** ** Vocabulary of the specification *)

(** The states reachable from [S] by zero or more epsilon moves. *)
Inductive eps_reach (T : Transitions) (S : list string) : string → Prop :=
| eps_reach_in x : x ∈ S → eps_reach T S x
| eps_reach_step s d :
    eps_reach T S s → d ∈ dests T s "" → eps_reach T S d.

(** The loop states a run passes through: at the test of the [while]
    ([at_head]) and after each symbol inside an iteration ([visited]). *)
Inductive at_head (nfa : NFA.t) : LoopState → Prop :=
| at_head_init : at_head nfa (init nfa)
| at_head_next st cur rest v :
    at_head nfa st → dfaQueue st = cur :: rest →
    Map_get (dfaStates st) cur = Some v →
    at_head nfa (iteration nfa cur rest v st).

Inductive visited (nfa : NFA.t) : LoopState → Prop :=
| visited_head st : at_head nfa st → visited nfa st
| visited_symbols st cur rest v done todo :
    at_head nfa st → dfaQueue st = cur :: rest →
    Map_get (dfaStates st) cur = Some v →
    NFA.alphabet nfa = done ++ todo →
    visited nfa (foldl (on_symbol nfa cur v) (enter nfa cur rest v st) done).

(** A transition of the DFA, and reachability along transitions. *)
Definition edge (δ : gmap string (gmap string string)) (k k' : string) : Prop :=
  ∃ m symbol, δ !! k = Some m ∧ m !! symbol = Some k'.

Definition reachable (δ : gmap string (gmap string string))
  (start k : string) : Prop := rtc (edge δ) start k.

(** [U] holds the start state and every destination of a move (on epsilon
    or on a symbol of the alphabet) out of a state of [U]. *)
Definition closed_under (nfa : NFA.t) (U : list string) : Prop :=
  NFA.startState nfa ∈ U ∧
  ∀ s symbol d, s ∈ U → symbol = "" ∨ symbol ∈ NFA.alphabet nfa →
    d ∈ dests (NFA.transitions nfa) s symbol → d ∈ U.

(** A well-formed NFA: the start state and the destinations of the moves of
    declared states are declared states. *)
Definition well_formed (nfa : NFA.t) : Prop := closed_under nfa (NFA.states nfa).

(** All states that occur as a destination, and with the start state all
    states a conversion can meet. *)
Definition all_targets (T : Transitions) : list string :=
  map_to_list T ≫= λ sm, map_to_list sm.2 ≫= snd.

Definition mentioned (nfa : NFA.t) : list string :=
  NFA.startState nfa :: all_targets (NFA.transitions nfa).

(** The conversion of [nfa] ends with its loop in state [st]. *)
Definition ends (nfa : NFA.t) (st : LoopState) : Prop :=
  ∃ fuel, run fuel nfa = Ok st.

(** ** The possible keys *)

(** All sub-sequences of a list. *)
Fixpoint sublists (l : list string) : list (list string) :=
  match l with
  | [] => [[]]
  | x :: l => ((x ::.) <$> sublists l) ++ sublists l
  end.

(** The keys of the non-empty sets of states drawn from [U]. *)
Definition candidates (U : list string) : list string :=
  stateSetToString <$> filter (λ X, X ≠ []) (sublists (remove_dups U)).

(** ** The three-state example *)

Definition example_transitions : Transitions :=
  <["q0" := <["a" := ["q0"; "q1"]]> (<["b" := ["q0"]]> ∅)]>
  (<["q1" := <["a" := ["q2"]]> ∅]> ∅).

Definition example_nfa : NFA.t :=
  NFA.mk ["q0"; "q1"; "q2"] ["a"; "b"] example_transitions "q0" {["q2"]}.

Definition example_dfa : DFA.t :=
  DFA.mk ["{q0}"; "{q0,q1}"; "{q0,q1,q2}"] ["a"; "b"]
    (<["{q0}" := <["a" := "{q0,q1}"]> (<["b" := "{q0}"]> ∅)]>
     (<["{q0,q1}" := <["a" := "{q0,q1,q2}"]> (<["b" := "{q0}"]> ∅)]>
      (<["{q0,q1,q2}" := <["a" := "{q0,q1,q2}"]> (<["b" := "{q0}"]> ∅)]> ∅)))
    "{q0}" ["{q0,q1,q2}"].

(** The same NFA with the absent moves written as empty arrays, as in the
    example at the end of the source. *)
Definition example_transitions_padded : Transitions :=
  <["q0" := <["a" := ["q0"; "q1"]]> (<["b" := ["q0"]]> ∅)]>
  (<["q1" := <["a" := ["q2"]]> (<["b" := []]> ∅)]>
  (<["q2" := <["a" := []]> (<["b" := []]> ∅)]> ∅)).

(** ** Checks on small inputs *)

Example stateSetToString_sorts : stateSetToString ["q1"; "q0"] = "{q0,q1}".
Proof. reflexivity. Qed.

Example stateSetToString_prefix_first :
  stateSetToString ["q10"; "q2"; "q1"] = "{q1,q10,q2}".
Proof. reflexivity. Qed.

(** a -eps-> b, b -eps-> c and a, c -x-> a *)
Definition eps_cycle : Transitions :=
  <["a" := <["" := ["b"]]> ∅]>
  (<["b" := <["" := ["c"; "a"]]> ∅]>
  (<["c" := <["x" := ["a"]]> ∅]> ∅)).

Example closure_follows_epsilon :
  epsilonClosure ["a"] eps_cycle = ["a"; "b"; "c"].
Proof. reflexivity. Qed.

Example closure_keeps_first_occurrence :
  epsilonClosure ["c"; "b"; "c"] eps_cycle = ["c"; "b"; "a"].
Proof. reflexivity. Qed.

Example closure_without_entry : epsilonClosure ["z"] eps_cycle = ["z"].
Proof. reflexivity. Qed.

(** s -eps-> t, t -x-> u; no move on y. *)
Definition eps_nfa : NFA.t :=
  NFA.mk ["s"; "t"; "u"] ["x"; "y"]
    (<["s" := <["" := ["t"]]> ∅]> (<["t" := <["x" := ["u"]]> ∅]> ∅))
    "s" {["u"]}.

Example convert_eps_nfa :
  convertNFAtoDFA 2 eps_nfa =
  Ok (DFA.mk ["{s,t}"; "{u}"] ["x"; "y"]
        (<["{s,t}" := <["x" := "{u}"]> ∅]> (<["{u}" := ∅]> ∅))
        "{s,t}" ["{u}"]).
Proof. vm_compute. reflexivity. Qed.

Example convert_needs_its_iterations :
  convertNFAtoDFA 1 eps_nfa = OutOfFuel.
Proof. vm_compute. reflexivity. Qed.

(** * Proofs *)

(** ** Insertion-ordered sets *)

Lemma set_has_true s x : set_has s x = true ↔ x ∈ s.
Proof. unfold set_has. apply bool_decide_eq_true. Qed.

Lemma set_has_false s x : set_has s x = false ↔ x ∉ s.
Proof. unfold set_has. apply bool_decide_eq_false. Qed.

Lemma elem_of_set_add s x y : y ∈ set_add s x ↔ y ∈ s ∨ y = x.
Proof.
  unfold set_add. destruct (set_has s x) eqn:E.
  - apply set_has_true in E. naive_solver.
  - rewrite elem_of_app, list_elem_of_singleton. tauto.
Qed.

Lemma NoDup_set_add s x : NoDup s → NoDup (set_add s x).
Proof.
  intros Hs. unfold set_add. destruct (set_has s x) eqn:E; [done|].
  apply set_has_false in E. apply NoDup_app. split_and!; [done| |apply NoDup_singleton].
  intros y Hy ->%list_elem_of_singleton. done.
Qed.

Lemma foldl_set_add_spec xs : ∀ s,
  (∀ y, y ∈ foldl set_add s xs ↔ y ∈ s ∨ y ∈ xs) ∧
  (NoDup s → NoDup (foldl set_add s xs)).
Proof.
  induction xs as [|x xs IH]; intros s; simpl.
  - split; [|done]. intros y. rewrite elem_of_nil. tauto.
  - destruct (IH (set_add s x)) as [IH1 IH2]. split.
    + intros y. rewrite IH1, elem_of_set_add, elem_of_cons. tauto.
    + intros Hs. apply IH2, NoDup_set_add, Hs.
Qed.

Lemma elem_of_new_Set xs y : y ∈ new_Set xs ↔ y ∈ xs.
Proof.
  unfold new_Set. rewrite (proj1 (foldl_set_add_spec xs [])), elem_of_nil. tauto.
Qed.

Lemma NoDup_new_Set xs : NoDup (new_Set xs).
Proof. apply (foldl_set_add_spec xs []), NoDup_nil_2. Qed.

Lemma foldl_set_add_NoDup xs : ∀ s,
  NoDup (s ++ xs) → foldl set_add s xs = s ++ xs.
Proof.
  induction xs as [|x xs IH]; intros s Hnd; simpl.
  - by rewrite app_nil_r.
  - assert (x ∉ s) as Hx.
    { apply NoDup_app in Hnd as (_ & Hd & _). intros Hin.
      apply (Hd x Hin). left. }
    unfold set_add at 2. apply set_has_false in Hx. rewrite Hx.
    rewrite IH; rewrite <- (assoc_L (++)); done.
Qed.

(** A set built from an array without repetitions lists it unchanged. *)
Lemma new_Set_NoDup xs : NoDup xs → new_Set xs = xs.
Proof. intros H. unfold new_Set. by rewrite foldl_set_add_NoDup. Qed.

(** ** The loop of epsilonClosure *)

Section closure.
Variable T : Transitions.

Lemma dests_eps_targets s d : d ∈ dests T s "" → d ∈ eps_targets T.
Proof.
  unfold dests, eps_targets. intros Hd.
  destruct (T !! s) as [m|] eqn:Hs; simpl in Hd; [|by apply elem_of_nil in Hd].
  apply list_elem_of_bind. exists (s, m). split; [done|].
  by apply elem_of_map_to_list.
Qed.

(** The states not yet in the closure among the possible destinations. *)
Definition unseen (closure : list string) : nat :=
  length (filter (λ x, x ∉ closure) (eps_targets T)).

Lemma filter_notin_snoc (c L : list string) d :
  length (filter (λ x, x ∉ c ++ [d]) L) ≤ length (filter (λ x, x ∉ c) L) ∧
  (d ∈ L → d ∉ c →
   length (filter (λ x, x ∉ c ++ [d]) L) < length (filter (λ x, x ∉ c) L)).
Proof.
  induction L as [|a L [IH1 IH2]]; simpl.
  - split; [done|]. by intros ?%elem_of_nil.
  - rewrite !filter_cons.
    destruct (decide (a ∉ c ++ [d])) as [Ha|Ha].
    + assert (a ∉ c) as Ha' by (intros ?; apply Ha, elem_of_app; auto).
      rewrite decide_True by done. simpl. split; [lia|].
      intros [->|Hin]%elem_of_cons Hd.
      * exfalso. apply Ha, elem_of_app. right. left.
      * specialize (IH2 Hin Hd). lia.
    + destruct (decide (a ∉ c)); simpl; [split; intros; lia|].
      split; [done|]. intros [->|Hin]%elem_of_cons Hd; [done|]. auto.
Qed.

(** What one pass of the inner [for] does to the closure and the stack. *)
Lemma foldl_visit_spec ds : ∀ c s,
  let cs := foldl visit (c, s) ds in
  (∀ x, x ∈ cs.1 ↔ x ∈ c ∨ x ∈ ds) ∧
  (∀ x, x ∈ cs.2 ↔ x ∈ s ∨ (x ∈ ds ∧ x ∉ c)) ∧
  (NoDup c → NoDup cs.1) ∧
  ((∀ d, d ∈ ds → d ∈ eps_targets T) →
   length cs.2 + unseen cs.1 ≤ length s + unseen c) ∧
  ((∀ d, d ∈ ds → d ∈ c) → cs = (c, s)).
Proof.
  induction ds as [|d ds IH]; intros c s; simpl.
  - split_and!; try done; intros x; rewrite elem_of_nil; tauto.
  - destruct (set_has c d) eqn:E.
    + replace (visit (c, s) d) with (c, s)
        by (unfold visit; simpl; by rewrite E).
      apply set_has_true in E.
      destruct (IH c s) as (I1 & I2 & I3 & I4 & I5). split_and!.
      * intros x. rewrite I1, elem_of_cons. naive_solver.
      * intros x. rewrite I2, elem_of_cons. naive_solver.
      * done.
      * intros H. apply I4. intros; apply H; by right.
      * intros H. apply I5. intros; apply H; by right.
    + replace (visit (c, s) d) with (c ++ [d], d :: s)
        by (unfold visit; simpl; by rewrite E).
      apply set_has_false in E.
      destruct (IH (c ++ [d]) (d :: s)) as (I1 & I2 & I3 & I4 & I5). split_and!.
      * intros x. rewrite I1, elem_of_app, list_elem_of_singleton, elem_of_cons.
        tauto.
      * intros x. rewrite I2, !elem_of_cons, elem_of_app, list_elem_of_singleton.
        destruct (decide (x = d)) as [->|]; naive_solver.
      * intros Hc. apply I3, NoDup_app. split_and!; [done| |apply NoDup_singleton].
        intros y Hy ->%list_elem_of_singleton. done.
      * intros H. etrans; [apply I4; intros; apply H; by right|].
        simpl. unfold unseen.
        pose proof (proj2 (filter_notin_snoc c (eps_targets T) d)
                      (H d ltac:(left)) E). lia.
      * intros H. exfalso. apply E, H. left.
Qed.

(** The loop ends within [length stack + unseen closure] iterations. *)
Lemma closure_loop_ends fuel : ∀ closure stack,
  length stack + unseen closure ≤ fuel →
  ∃ r, closure_loop fuel T closure stack = Ok r.
Proof.
  induction fuel as [|fuel IH]; intros c s Hm.
  - destruct s; simpl in *; [eauto|lia].
  - destruct s as [|x rest]; simpl in *; [eauto|].
    apply IH.
    destruct (foldl_visit_spec (dests T x "") c rest) as (_ & _ & _ & H & _).
    specialize (H (λ d, dests_eps_targets x d)). simpl in H. lia.
Qed.

(** More iterations do not change a result. *)
Lemma closure_loop_mono fuel : ∀ fuel' closure stack r,
  closure_loop fuel T closure stack = Ok r → fuel ≤ fuel' →
  closure_loop fuel' T closure stack = Ok r.
Proof.
  induction fuel as [|fuel IH]; intros fuel' c s r H Hle.
  - destruct s; [|done]. by destruct fuel'.
  - destruct s as [|x rest]; [by destruct fuel'|].
    destruct fuel' as [|fuel']; [lia|]. simpl in *. apply IH; [done|lia].
Qed.

(** The loop invariant: the closure holds the input and the stack, lies
    within the reachable states, and each of its members either waits on
    the stack or has all its epsilon destinations in the closure. *)
Definition closure_inv (S closure stack : list string) : Prop :=
  (∀ x, x ∈ S → x ∈ closure) ∧
  (∀ x, x ∈ stack → x ∈ closure) ∧
  (∀ x, x ∈ closure → eps_reach T S x) ∧
  (∀ x, x ∈ closure →
     x ∈ stack ∨ ∀ d, d ∈ dests T x "" → d ∈ closure) ∧
  NoDup closure.

Lemma closure_loop_inv S fuel : ∀ closure stack r,
  closure_inv S closure stack →
  closure_loop fuel T closure stack = Ok r →
  closure_inv S r [].
Proof.
  induction fuel as [|fuel IH]; intros c s r Hinv Hr.
  - destruct s; [|done]. simpl in Hr. by injection Hr as <-.
  - destruct s as [|x rest]; simpl in Hr; [by injection Hr as <-|].
    apply IH in Hr; [done|]. clear IH Hr.
    destruct Hinv as (H1 & Hs & H2 & H3 & H4).
    destruct (foldl_visit_spec (dests T x "") c rest) as (I1 & I2 & I3 & _).
    simpl in *. split_and!.
    + intros y Hy. apply I1. auto.
    + intros y [Hy|[Hy _]]%I2; apply I1; [left; apply Hs; by right|by right].
    + intros y [Hy|Hy]%I1; [auto|].
      eapply eps_reach_step; [|exact Hy]. apply H2, Hs. left.
    + intros y [Hy|Hy]%I1.
      * destruct (H3 y Hy) as [[->|Hin]%elem_of_cons|Hcl].
        -- right. intros d Hd. apply I1. by right.
        -- left. apply I2. by left.
        -- right. intros d Hd. apply I1. left. by apply Hcl.
      * destruct (decide (y ∈ c)) as [Hc|Hc].
        -- destruct (H3 y Hc) as [[->|Hin]%elem_of_cons|Hcl].
           ++ right. intros d Hd. apply I1. by right.
           ++ left. apply I2. by left.
           ++ right. intros d Hd. apply I1. left. by apply Hcl.
        -- left. apply I2. by right.
    + auto.
Qed.

Lemma closure_inv_init S : closure_inv S (new_Set S) (reverse S).
Proof.
  split_and!.
  - intros x. by rewrite elem_of_new_Set.
  - intros x. by rewrite elem_of_reverse, elem_of_new_Set.
  - intros x. rewrite elem_of_new_Set. apply eps_reach_in.
  - intros x. rewrite elem_of_new_Set. intros Hx. left. by apply elem_of_reverse.
  - apply NoDup_new_Set.
Qed.

(** [epsilonClosure] is the result of its loop, which ends. *)
Lemma epsilonClosure_run_Ok S : epsilonClosure_run S T = Ok (epsilonClosure S T).
Proof.
  unfold epsilonClosure.
  destruct (closure_loop_ends (closure_fuel S T) (new_Set S) (reverse S))
    as [r Hr].
  - rewrite length_reverse. unfold closure_fuel, unseen.
    pose proof (length_filter (λ x, x ∉ new_Set S) (eps_targets T)). lia.
  - unfold epsilonClosure_run. by rewrite Hr.
Qed.

(** Whatever number of iterations lets the loop end, the result is the
    same. *)
Lemma epsilonClosure_any_fuel S fuel r :
  closure_loop fuel T (new_Set S) (reverse S) = Ok r → r = epsilonClosure S T.
Proof.
  intros H. pose proof (epsilonClosure_run_Ok S) as H'.
  unfold epsilonClosure_run in H'.
  apply (closure_loop_mono _ (fuel `max` closure_fuel S T)) in H; [|lia].
  apply (closure_loop_mono _ (fuel `max` closure_fuel S T)) in H'; [|lia].
  congruence.
Qed.

Lemma epsilonClosure_inv S : closure_inv S (epsilonClosure S T) [].
Proof.
  eapply closure_loop_inv; [apply closure_inv_init|].
  apply epsilonClosure_run_Ok.
Qed.

Lemma elem_of_epsilonClosure S x : x ∈ epsilonClosure S T ↔ eps_reach T S x.
Proof.
  destruct (epsilonClosure_inv S) as (H1 & _ & H2 & H3 & _). split; [auto|].
  induction 1 as [x Hx|s d _ IH Hd]; [auto|].
  destruct (H3 s IH) as [[]%elem_of_nil|Hcl]. auto.
Qed.

Lemma NoDup_epsilonClosure S : NoDup (epsilonClosure S T).
Proof. apply epsilonClosure_inv. Qed.

(** On a stack whose states have all their epsilon destinations in the
    closure already, the loop returns the closure as it is. *)
Lemma closure_loop_closed fuel : ∀ closure stack,
  (∀ s d, s ∈ stack → d ∈ dests T s "" → d ∈ closure) →
  length stack ≤ fuel →
  closure_loop fuel T closure stack = Ok closure.
Proof.
  induction fuel as [|fuel IH]; intros c s Hcl Hlen.
  - destruct s; simpl in *; [done|lia].
  - destruct s as [|x rest]; simpl in *; [done|].
    destruct (foldl_visit_spec (dests T x "") c rest) as (_ & _ & _ & _ & I5).
    simpl in I5. rewrite I5 by (intros d; apply Hcl; left). simpl.
    apply IH; [|lia]. intros s d Hs. apply Hcl. by right.
Qed.

Lemma epsilonClosure_nil : epsilonClosure [] T = [].
Proof.
  pose proof (epsilonClosure_run_Ok []) as H.
  unfold epsilonClosure_run in H. simpl in H.
  destruct (closure_fuel [] T); simpl in H; by injection H as <-.
Qed.

Lemma epsilonClosure_idemp S :
  epsilonClosure (epsilonClosure S T) T = epsilonClosure S T.
Proof.
  pose proof (epsilonClosure_run_Ok (epsilonClosure S T)) as H.
  unfold epsilonClosure_run in H.
  rewrite new_Set_NoDup in H by apply NoDup_epsilonClosure.
  rewrite closure_loop_closed in H.
  - by injection H as <-.
  - intros s d Hs Hd. rewrite elem_of_reverse in Hs.
    apply elem_of_epsilonClosure. eapply eps_reach_step; [|done].
    by apply elem_of_epsilonClosure.
  - rewrite length_reverse. unfold closure_fuel. lia.
Qed.
End closure.

(** ** The order of sort() and the canonical key *)

Lemma string_compare_trans s1 : ∀ s2 s3,
  String.compare s1 s2 ≠ Gt → String.compare s2 s3 ≠ Gt →
  String.compare s1 s3 ≠ Gt.
Proof.
  induction s1 as [|c1 s1 IH]; intros [|c2 s2] [|c3 s3]; simpl; try done.
  unfold Ascii.compare.
  destruct (N.compare_spec (N_of_ascii c1) (N_of_ascii c2)) as [E12|L12|G12];
    destruct (N.compare_spec (N_of_ascii c2) (N_of_ascii c3)) as [E23|L23|G23];
    try done; intros H1 H2.
  - rewrite E12, E23, N.compare_refl. by apply (IH s2).
  - rewrite E12. by apply N.compare_lt_iff in L23 as ->.
  - rewrite <- E23. by apply N.compare_lt_iff in L12 as ->.
  - assert (N_of_ascii c1 < N_of_ascii c3)%N as L by lia.
    by apply N.compare_lt_iff in L as ->.
Qed.

Global Instance str_le_trans : Transitive str_le.
Proof.
  intros a b c. unfold str_le, String.leb. intros H1 H2.
  pose proof (string_compare_trans a b c) as H.
  destruct (String.compare a b), (String.compare b c), (String.compare a c);
    try done; exfalso; by apply H.
Qed.

Global Instance str_le_total : Total str_le.
Proof. intros a b. apply String.leb_total. Qed.

Global Instance str_le_antisym : AntiSymm (=) str_le.
Proof. intros a b. apply String.leb_antisym. Qed.

Lemma sort_Permutation l : sort l ≡ₚ l.
Proof. apply merge_sort_Permutation. Qed.

Lemma Sorted_sort l : Sorted str_le (sort l).
Proof. apply Sorted_merge_sort, _. Qed.

(** Sorting depends on the elements only, not on their order. *)
Lemma sort_perm l1 l2 : l1 ≡ₚ l2 → sort l1 = sort l2.
Proof.
  intros H. apply (Sorted_unique str_le); try apply Sorted_sort.
  by rewrite !sort_Permutation.
Qed.

Lemma sort_sort l : sort (sort l) = sort l.
Proof. apply sort_perm, sort_Permutation. Qed.

Lemma elem_of_sort l x : x ∈ sort l ↔ x ∈ l.
Proof. by rewrite sort_Permutation. Qed.

Lemma NoDup_sort l : NoDup (sort l) ↔ NoDup l.
Proof. by rewrite sort_Permutation. Qed.

Lemma sort_nil_inv l : sort l = [] → l = [].
Proof.
  intros H. apply Permutation_nil_r. rewrite <- H. symmetry. apply sort_Permutation.
Qed.

(** Two arrays without repetitions that hold the same states have the same
    canonical key. *)
Lemma stateSetToString_set l1 l2 :
  NoDup l1 → NoDup l2 → (∀ x, x ∈ l1 ↔ x ∈ l2) →
  stateSetToString l1 = stateSetToString l2.
Proof.
  intros H1 H2 H. unfold stateSetToString.
  by rewrite (sort_perm l1 l2) by by apply NoDup_Permutation.
Qed.

Lemma stateSetToString_sort l : stateSetToString (sort l) = stateSetToString l.
Proof. unfold stateSetToString. by rewrite sort_sort. Qed.

(** ** Insertion-ordered maps *)

Lemma Map_get_Some_elem m k v : Map_get m k = Some v → (k, v) ∈ m.
Proof.
  induction m as [|[k' v'] m IH]; simpl; [done|].
  destruct (String.eqb_spec k' k) as [->|].
  - intros [= ->]. left.
  - intros H. right. auto.
Qed.

Lemma Map_get_None m k : Map_get m k = None ↔ k ∉ Map_keys m.
Proof.
  unfold Map_keys. induction m as [|[k' v'] m IH]; simpl.
  - split; [|done]. intros _ []%elem_of_nil.
  - rewrite not_elem_of_cons. destruct (String.eqb_spec k' k) as [->|]; naive_solver.
Qed.

Lemma Map_get_is_Some m k : is_Some (Map_get m k) ↔ k ∈ Map_keys m.
Proof.
  rewrite <- not_eq_None_Some, Map_get_None.
  destruct (decide (k ∈ Map_keys m)); naive_solver.
Qed.

Lemma Map_has_false m k : Map_has m k = false ↔ k ∉ Map_keys m.
Proof.
  rewrite <- Map_get_None. unfold Map_has. destruct (Map_get m k); naive_solver.
Qed.

(** Setting a key that is absent appends the entry. *)
Lemma Map_set_fresh m k v : k ∉ Map_keys m → Map_set m k v = m ++ [(k, v)].
Proof.
  unfold Map_keys. induction m as [|[k' v'] m IH]; simpl; [done|].
  rewrite not_elem_of_cons. intros [Hne Hk].
  destruct (String.eqb_spec k' k) as [->|]; [done|]. by rewrite IH.
Qed.

Lemma Map_get_app_l m m' k v :
  Map_get m k = Some v → Map_get (m ++ m') k = Some v.
Proof.
  induction m as [|[k' v'] m IH]; simpl; [done|].
  destruct (String.eqb k' k); auto.
Qed.

Lemma Map_get_snoc_fresh m k v : k ∉ Map_keys m → Map_get (m ++ [(k, v)]) k = Some v.
Proof.
  unfold Map_keys. induction m as [|[k' v'] m IH]; simpl.
  - by rewrite String.eqb_refl.
  - rewrite not_elem_of_cons. intros [Hne Hk].
    destruct (String.eqb_spec k' k) as [->|]; [done|]. auto.
Qed.

Lemma Map_get_NoDup m k v :
  NoDup (Map_keys m) → (k, v) ∈ m → Map_get m k = Some v.
Proof.
  unfold Map_keys. induction m as [|[k' v'] m IH]; simpl.
  - by intros _ ?%elem_of_nil.
  - intros [Hk Hnd]%NoDup_cons [[= -> ->]|Hin]%elem_of_cons.
    + by rewrite String.eqb_refl.
    + destruct (String.eqb_spec k' k) as [->|]; [|auto].
      exfalso. apply Hk. apply list_elem_of_fmap. by exists (k, v).
Qed.

(** ** Counting the possible keys *)

Lemma length_sublists l : length (sublists l) = 2 ^ length l.
Proof.
  induction l as [|x l IH]; simpl; [done|].
  rewrite length_app, length_fmap, IH. lia.
Qed.

Lemma nil_in_sublists l : [] ∈ sublists l.
Proof.
  induction l as [|x l IH]; simpl; [left|]. apply elem_of_app. by right.
Qed.

Lemma filter_in_sublists (P : string → Prop) `{∀ x, Decision (P x)} l :
  filter P l ∈ sublists l.
Proof.
  induction l as [|x l IH]; simpl; [left|]. rewrite filter_cons.
  apply elem_of_app. destruct (decide (P x)); [left|by right].
  apply list_elem_of_fmap. eauto.
Qed.

Lemma length_candidates U : length (candidates U) ≤ 2 ^ length U - 1.
Proof.
  unfold candidates. rewrite length_fmap.
  pose proof (length_filter_lt (λ X : list string, X ≠ [])
                (sublists (remove_dups U)) [] (nil_in_sublists _)) as H.
  rewrite length_sublists in H.
  assert (length (remove_dups U) ≤ length U) as Hle.
  { apply submseteq_length, NoDup_submseteq; [apply NoDup_remove_dups|].
    intros x. by rewrite elem_of_remove_dups. }
  pose proof (Nat.pow_le_mono_r 2 _ _ ltac:(lia) Hle).
  assert (length (filter (λ X : list string, X ≠ []) (sublists (remove_dups U)))
          < 2 ^ length (remove_dups U)) by (apply H; naive_solver).
  lia.
Qed.

Lemma stateSetToString_candidate U v :
  NoDup v → v ≠ [] → (∀ x, x ∈ v → x ∈ U) → stateSetToString v ∈ candidates U.
Proof.
  intros Hnd Hne HU. unfold candidates. apply list_elem_of_fmap.
  exists (filter (λ x, x ∈ v) (remove_dups U)).
  assert (∀ x, x ∈ v ↔ x ∈ filter (λ x, x ∈ v) (remove_dups U)) as Hiff.
  { intros x. rewrite list_elem_of_filter, elem_of_remove_dups. naive_solver. }
  split.
  - apply stateSetToString_set; [done| |done].
    apply NoDup_filter, NoDup_remove_dups.
  - apply list_elem_of_filter. split; [|apply filter_in_sublists].
    destruct v as [|x v]; [done|]. intros Hnil.
    pose proof (proj1 (Hiff x) ltac:(left)) as Hx. rewrite Hnil in Hx.
    by apply elem_of_nil in Hx.
Qed.

(** ** The loop of convertNFAtoDFA *)

Lemma closed_under_mentioned nfa : closed_under nfa (mentioned nfa).
Proof.
  split; [left|]. intros s symbol d _ _ Hd. right.
  unfold dests in Hd. unfold all_targets.
  destruct (NFA.transitions nfa !! s) as [m|] eqn:Hs; simpl in Hd;
    [|by apply elem_of_nil in Hd].
  destruct (m !! symbol) as [ds|] eqn:Hm; simpl in Hd;
    [|by apply elem_of_nil in Hd].
  apply list_elem_of_bind. exists (s, m). split; [|by apply elem_of_map_to_list].
  apply list_elem_of_bind. exists (symbol, ds). split; [done|].
  by apply elem_of_map_to_list.
Qed.

Lemma edge_insert_empty (δ : gmap string (gmap string string)) cur k k' :
  δ !! cur = None → edge δ k k' → edge (<[cur := ∅]> δ) k k'.
Proof.
  intros Hcur (m & symbol & Hk & Hm). exists m, symbol. split; [|done].
  rewrite lookup_insert_ne; [done|]. intros ->. congruence.
Qed.

Lemma lookup_record (δ : gmap string (gmap string string)) (cur symbol key : string) k m' :
  alter (λ m, <[symbol := key]> m) cur δ !! k = Some m' →
  (k ≠ cur ∧ δ !! k = Some m') ∨
  (k = cur ∧ ∃ m, δ !! cur = Some m ∧ m' = <[symbol := key]> m).
Proof.
  destruct (decide (k = cur)) as [->|Hne].
  - rewrite lookup_alter_eq. destruct (δ !! cur) as [m|]; simpl; [|done].
    intros [= <-]. right. eauto.
  - rewrite lookup_alter_ne by done. auto.
Qed.

Lemma edge_record_mono (δ : gmap string (gmap string string)) (cur symbol key : string) k k' :
  (∀ m k1, δ !! cur = Some m → m !! symbol = Some k1 → k1 = key) →
  edge δ k k' → edge (alter (λ m, <[symbol := key]> m) cur δ) k k'.
Proof.
  intros Hsame (m & symbol' & Hk & Hm).
  destruct (decide (k = cur)) as [->|Hne].
  - exists (<[symbol := key]> m), symbol'. rewrite lookup_alter_eq, Hk. split; [done|].
    destruct (decide (symbol' = symbol)) as [->|Hs].
    + rewrite lookup_insert_eq. f_equal. symmetry. eauto.
    + by rewrite lookup_insert_ne.
  - exists m, symbol'. by rewrite lookup_alter_ne.
Qed.

Lemma edge_record_new (δ : gmap string (gmap string string)) (cur symbol key : string) :
  is_Some (δ !! cur) → edge (alter (λ m, <[symbol := key]> m) cur δ) cur key.
Proof.
  intros [m Hm]. exists (<[symbol := key]> m), symbol.
  by rewrite lookup_alter_eq, Hm, lookup_insert_eq.
Qed.

Section convert.
Variable nfa : NFA.t.
Variable U : list string.
Hypothesis HU : closed_under nfa U.

Lemma epsilonClosure_within S :
  (∀ x, x ∈ S → x ∈ U) →
  ∀ x, x ∈ epsilonClosure S (NFA.transitions nfa) → x ∈ U.
Proof.
  intros HS x Hx%elem_of_epsilonClosure.
  induction Hx as [x Hx|s d _ IH Hd]; [auto|].
  destruct HU as [_ Hcl]. eapply Hcl; [exact IH| |exact Hd]. by left.
Qed.

Lemma nextStates_within v symbol :
  symbol ∈ NFA.alphabet nfa → (∀ x, x ∈ v → x ∈ U) →
  ∀ x, x ∈ nextStates nfa v symbol → x ∈ U.
Proof.
  intros Hsym Hv. apply epsilonClosure_within.
  intros x (s & Hx & Hs)%list_elem_of_bind.
  destruct HU as [_ Hcl]. eapply Hcl; [apply Hv, Hs| |exact Hx]. by right.
Qed.

(** What holds of the loop state whenever a symbol has been handled. *)
Record Inv (st : LoopState) : Prop := {
  inv_keys : NoDup (Map_keys (dfaStates st));
  inv_entries : ∀ k v, (k, v) ∈ dfaStates st →
    k = stateSetToString v ∧ NoDup v ∧ v ≠ [] ∧ ∀ x, x ∈ v → x ∈ U;
  inv_queue : ∃ done,
    Map_keys (dfaStates st) = done ++ dfaQueue st ∧
    ∀ k, k ∈ done ↔ is_Some (dfaTransitions st !! k);
  inv_trans : ∀ k m symbol k',
    dfaTransitions st !! k = Some m → m !! symbol = Some k' →
    symbol ∈ NFA.alphabet nfa ∧ k' ∈ Map_keys (dfaStates st) ∧
    ∃ v, Map_get (dfaStates st) k = Some v ∧
         nextStates nfa v symbol ≠ [] ∧
         k' = stateSetToString (nextStates nfa v symbol);
  inv_accept : ∀ k, k ∈ dfaAcceptStates st ↔
    is_Some (dfaTransitions st !! k) ∧
    ∃ v, Map_get (dfaStates st) k = Some v ∧
         ∃ s, s ∈ v ∧ s ∈ NFA.acceptStates nfa;
  inv_accept_nodup : NoDup (dfaAcceptStates st);
  inv_reach : ∀ k, k ∈ Map_keys (dfaStates st) →
    reachable (dfaTransitions st) (startKey nfa) k;
  inv_start : Map_get (dfaStates st) (startKey nfa) =
    Some (sort (epsilonClosure [NFA.startState nfa] (NFA.transitions nfa)))
}.

Lemma start_closure_facts :
  let c := epsilonClosure [NFA.startState nfa] (NFA.transitions nfa) in
  NoDup (sort c) ∧ sort c ≠ [] ∧ ∀ x, x ∈ sort c → x ∈ U.
Proof.
  intros c. split_and!.
  - apply NoDup_sort, NoDup_epsilonClosure.
  - intros Hnil%sort_nil_inv.
    assert (NFA.startState nfa ∈ c) as Hin.
    { apply elem_of_epsilonClosure, eps_reach_in. left. }
    rewrite Hnil in Hin. by apply elem_of_nil in Hin.
  - intros x. rewrite elem_of_sort. revert x. apply epsilonClosure_within.
    intros x ->%list_elem_of_singleton. apply HU.
Qed.

Lemma Inv_init : Inv (init nfa).
Proof.
  destruct start_closure_facts as (F1 & F2 & F3).
  unfold init. split; simpl.
  - apply NoDup_singleton.
  - intros k v [= -> ->]%list_elem_of_singleton.
    by rewrite stateSetToString_sort.
  - exists []. split; [done|]. intros k. rewrite lookup_empty.
    split; [by intros ?%elem_of_nil|by intros ?%is_Some_None].
  - intros k m symbol k'. by rewrite lookup_empty.
  - intros k. rewrite lookup_empty. split; [by intros ?%elem_of_nil|].
    by intros [?%is_Some_None _].
  - apply NoDup_nil_2.
  - intros k ->%list_elem_of_singleton. apply rtc_refl.
  - unfold startKey. by rewrite String.eqb_refl.
Qed.

Lemma existsb_accept v :
  existsb (λ state, bool_decide (state ∈ NFA.acceptStates nfa)) v = true ↔
  ∃ s, s ∈ v ∧ s ∈ NFA.acceptStates nfa.
Proof.
  rewrite existsb_exists. split; intros (s & H1 & H2); exists s.
  - apply list_elem_of_In in H1. by apply bool_decide_eq_true in H2.
  - rewrite <- list_elem_of_In. by rewrite bool_decide_eq_true.
Qed.

(** The key at the front of the queue has not been handled yet. *)
Lemma Inv_front_fresh st cur rest :
  Inv st → dfaQueue st = cur :: rest →
  dfaTransitions st !! cur = None ∧ cur ∈ Map_keys (dfaStates st).
Proof.
  intros [Hnd _ (done & Hk & Hd) _ _ _ _ _] Hq. rewrite Hq in Hk. split.
  - apply eq_None_not_Some. intros Hs%Hd.
    rewrite Hk in Hnd. apply NoDup_app in Hnd as (_ & Hdis & _).
    apply (Hdis cur Hs). left.
  - rewrite Hk. apply elem_of_app. right. left.
Qed.

Lemma Inv_enter st cur rest v :
  Inv st → dfaQueue st = cur :: rest →
  Map_get (dfaStates st) cur = Some v →
  Inv (enter nfa cur rest v st).
Proof.
  intros HI Hq Hget. destruct (Inv_front_fresh st cur rest HI Hq) as [Hnone Hin].
  destruct HI as [Hnd Hent (done & Hk & Hd) Htr Hacc Haccnd Hre Hst].
  unfold enter. split; simpl.
  - done.
  - done.
  - exists (done ++ [cur]). split.
    + by rewrite Hk, Hq, <- (assoc_L (++)).
    + intros k. rewrite elem_of_app, list_elem_of_singleton, Hd,
        lookup_insert_is_Some. destruct (decide (cur = k)); naive_solver.
  - intros k m symbol k' Hm Hs.
    destruct (decide (cur = k)) as [->|Hne].
    + rewrite lookup_insert_eq in Hm. injection Hm as <-.
      by rewrite lookup_empty in Hs.
    + rewrite lookup_insert_ne in Hm by done. eauto.
  - intros k.
    assert (is_Some (<[cur := ∅]> (dfaTransitions st) !! k) ↔
            k = cur ∨ is_Some (dfaTransitions st !! k)) as Hdom.
    { rewrite lookup_insert_is_Some. destruct (decide (cur = k)); naive_solver. }
    rewrite Hdom.
    destruct (existsb _ v) eqn:Hex.
    + apply existsb_accept in Hex. rewrite elem_of_set_add, Hacc.
      split.
      * intros [[? ?]| ->]; [naive_solver|]. split; [by left|eauto].
      * intros [[->|Hs] Hv]; [by right|left; done].
    + rewrite Hacc. split; [naive_solver|].
      intros [[->|Hs] Hv]; [|done]. exfalso.
      destruct Hv as (v' & Hv' & Hex'). rewrite Hget in Hv'.
      injection Hv' as <-. apply existsb_accept in Hex'. congruence.
  - destruct (existsb _ v); [by apply NoDup_set_add|done].
  - intros k Hkin. eapply rtc_subrel; [|by apply Hre].
    intros a b. by apply edge_insert_empty.
  - done.
Qed.

(** The keys not discovered yet among the possible ones, and the measure
    that bounds the iterations left. *)
Definition pending (st : LoopState) : nat :=
  length (dfaQueue st) +
  length (filter (λ k, k ∉ Map_keys (dfaStates st)) (candidates U)).

Lemma is_Some_record (δ : gmap string (gmap string string)) cur symbol key k :
  is_Some (alter (λ m, <[symbol := key]> m) cur δ !! k) ↔ is_Some (δ !! k).
Proof.
  destruct (decide (k = cur)) as [->|Hne].
  - rewrite lookup_alter_eq. destruct (δ !! cur); simpl; [|done].
    split; eauto.
  - by rewrite lookup_alter_ne.
Qed.

(** Recording a transition, after the destination was found among the
    keys or was appended as a new one. *)
Lemma Inv_record st cur v symbol m' q' :
  Inv st → is_Some (dfaTransitions st !! cur) →
  Map_get (dfaStates st) cur = Some v → symbol ∈ NFA.alphabet nfa →
  nextStates nfa v symbol ≠ [] →
  (m' = dfaStates st ∧ q' = dfaQueue st ∧
     stateSetToString (nextStates nfa v symbol) ∈ Map_keys (dfaStates st)) ∨
  (m' = dfaStates st ++ [(stateSetToString (nextStates nfa v symbol),
                          sort (nextStates nfa v symbol))] ∧
   q' = dfaQueue st ++ [stateSetToString (nextStates nfa v symbol)] ∧
   stateSetToString (nextStates nfa v symbol) ∉ Map_keys (dfaStates st)) →
  Inv (mkLoop m'
         (alter (λ m, <[symbol := stateSetToString (nextStates nfa v symbol)]> m)
            cur (dfaTransitions st))
         (dfaAcceptStates st) q').
Proof.
  intros HI Hcur Hget Hsym Hne Hcase.
  destruct HI as [Hnd Hent (done & Hk & Hd) Htr Hacc Haccnd Hre Hst].
  set (next := nextStates nfa v symbol) in *.
  set (key := stateSetToString next) in *.
  assert (NoDup next) as Hnext by apply NoDup_epsilonClosure.
  assert (∀ x, x ∈ next → x ∈ U) as HnextU.
  { apply nextStates_within; [done|]. by apply (Hent cur v), Map_get_Some_elem. }
  assert (Map_keys m' = Map_keys (dfaStates st) ∨
          Map_keys m' = Map_keys (dfaStates st) ++ [key]) as Hkeys.
  { destruct Hcase as [(-> & _)|(-> & _)]; [by left|right].
    unfold Map_keys. by rewrite fmap_app. }
  assert (∀ k, k ∈ Map_keys (dfaStates st) → k ∈ Map_keys m') as Hgrow.
  { intros k Hin. destruct Hkeys as [->| ->]; [done|].
    apply elem_of_app. by left. }
  assert (key ∈ Map_keys m') as Hkey.
  { destruct Hcase as [(-> & _ & ?)|(-> & _ & ?)]; [done|].
    unfold Map_keys. rewrite fmap_app. apply elem_of_app. right. left. }
  assert (∀ k w, Map_get (dfaStates st) k = Some w → Map_get m' k = Some w)
    as Hstable.
  { intros k w Hw. destruct Hcase as [(-> & _)|(-> & _)]; [done|].
    by apply Map_get_app_l. }
  assert (∀ m k1, dfaTransitions st !! cur = Some m → m !! symbol = Some k1 →
                  k1 = key) as Hsame.
  { intros m k1 Hm Hk1. destruct (Htr _ _ _ _ Hm Hk1) as (_ & _ & w & Hw & _ & ->).
    rewrite Hget in Hw. by injection Hw as <-. }
  split; simpl.
  - destruct Hcase as [(-> & _)|(-> & _ & Hnew)]; [done|].
    unfold Map_keys. rewrite fmap_app. apply NoDup_app. split_and!; [done| |].
    + intros k Hin ->%list_elem_of_singleton. done.
    + apply NoDup_singleton.
  - destruct Hcase as [(-> & _)|(-> & _ & Hnew)]; [done|].
    intros k w [Hin|[= -> ->]%list_elem_of_singleton]%elem_of_app; [auto|].
    split_and!.
    + by rewrite stateSetToString_sort.
    + by apply NoDup_sort.
    + intros Hnil%sort_nil_inv. done.
    + intros x. rewrite elem_of_sort. auto.
  - exists done. split.
    + destruct Hcase as [(-> & -> & _)|(-> & -> & _)]; [done|].
      unfold Map_keys in *. by rewrite fmap_app, Hk, <- (assoc_L (++)).
    + intros k. by rewrite is_Some_record.
  - intros k m symbol' k' Hm Hs.
    apply lookup_record in Hm as [(Hkne & Hm)|(-> & m0 & Hm0 & ->)].
    + destruct (Htr _ _ _ _ Hm Hs) as (? & ? & w & ? & ? & ?).
      split_and!; [done|auto|]. exists w. auto.
    + destruct (decide (symbol' = symbol)) as [->|Hsne].
      * rewrite lookup_insert_eq in Hs. injection Hs as <-.
        split_and!; [done|done|]. exists v. auto.
      * rewrite lookup_insert_ne in Hs by done.
        destruct (Htr _ _ _ _ Hm0 Hs) as (? & ? & w & ? & ? & ?).
        split_and!; [done|auto|]. exists w. auto.
  - intros k. rewrite is_Some_record, Hacc. split.
    + intros [Hs (w & Hw & Hex)]. split; [done|]. exists w. auto.
    + intros [Hs (w & Hw & Hex)]. split; [done|]. exists w. split; [|done].
      assert (is_Some (Map_get (dfaStates st) k)) as [w' Hw'].
      { apply Map_get_is_Some. rewrite Hk. apply elem_of_app. left. by apply Hd. }
      rewrite (Hstable _ _ Hw') in Hw. by injection Hw as <-.
  - done.
  - intros k Hin.
    assert (∀ k0, k0 ∈ Map_keys (dfaStates st) →
              reachable
                (alter (λ m, <[symbol := key]> m) cur (dfaTransitions st))
                (startKey nfa) k0) as Hold.
    { intros k0 Hk0. eapply rtc_subrel; [|by apply Hre].
      intros a b. by apply edge_record_mono. }
    destruct Hkeys as [Hkeys|Hkeys]; rewrite Hkeys in Hin; [auto|].
    apply elem_of_app in Hin as [Hin| ->%list_elem_of_singleton]; [auto|].
    eapply rtc_r; [apply (Hold cur)|by apply edge_record_new].
    apply Map_get_is_Some. by rewrite Hget.
  - auto.
Qed.

Lemma Map_has_true m k : Map_has m k = true ↔ k ∈ Map_keys m.
Proof.
  rewrite <- Map_get_is_Some. unfold Map_has.
  destruct (Map_get m k); split; try done; eauto.
Qed.

Lemma Inv_on_symbol st cur v symbol :
  Inv st → is_Some (dfaTransitions st !! cur) →
  Map_get (dfaStates st) cur = Some v → symbol ∈ NFA.alphabet nfa →
  Inv (on_symbol nfa cur v st symbol) ∧
  is_Some (dfaTransitions (on_symbol nfa cur v st symbol) !! cur) ∧
  Map_get (dfaStates (on_symbol nfa cur v st symbol)) cur = Some v ∧
  pending (on_symbol nfa cur v st symbol) ≤ pending st.
Proof.
  intros HI Hcur Hget Hsym. unfold on_symbol.
  case_bool_decide as Hlen; [|done].
  assert (nextStates nfa v symbol ≠ []) as Hne.
  { intros Hnil. rewrite Hnil in Hlen. simpl in Hlen. lia. }
  destruct (Map_has (dfaStates st) _) eqn:Hhas; simpl.
  - apply Map_has_true in Hhas. split_and!.
    + apply (Inv_record st cur v symbol); auto.
    + by apply is_Some_record.
    + done.
    + done.
  - apply Map_has_false in Hhas. rewrite Map_set_fresh by done. split_and!.
    + apply (Inv_record st cur v symbol); auto.
    + by apply is_Some_record.
    + by apply Map_get_app_l.
    + unfold pending. simpl.
      assert (Map_keys (dfaStates st ++
                [(stateSetToString (nextStates nfa v symbol),
                  sort (nextStates nfa v symbol))]) =
              Map_keys (dfaStates st) ++
                [stateSetToString (nextStates nfa v symbol)]) as ->
        by (unfold Map_keys; by rewrite fmap_app).
      rewrite length_app. simpl.
      assert (stateSetToString (nextStates nfa v symbol) ∈ candidates U) as Hc.
      { apply stateSetToString_candidate; [apply NoDup_epsilonClosure|done|].
        apply nextStates_within; [done|].
        by apply (inv_entries st HI cur v), Map_get_Some_elem. }
      pose proof (proj2 (filter_notin_snoc (Map_keys (dfaStates st))
                           (candidates U) _) Hc Hhas) as Hlt.
      lia.
Qed.

Lemma Inv_symbols symbols : ∀ st cur v,
  Inv st → is_Some (dfaTransitions st !! cur) →
  Map_get (dfaStates st) cur = Some v →
  (∀ symbol, symbol ∈ symbols → symbol ∈ NFA.alphabet nfa) →
  Inv (foldl (on_symbol nfa cur v) st symbols) ∧
  pending (foldl (on_symbol nfa cur v) st symbols) ≤ pending st.
Proof.
  induction symbols as [|symbol symbols IH]; intros st cur v HI Hcur Hget Hsub;
    simpl; [done|].
  destruct (Inv_on_symbol st cur v symbol) as (H1 & H2 & H3 & H4);
    [done|done|done|apply Hsub; left|].
  destruct (IH _ cur v H1 H2 H3) as [H5 H6].
  { intros s Hs. apply Hsub. by right. }
  split; [done|lia].
Qed.

Lemma enter_facts st cur rest v :
  dfaQueue st = cur :: rest →
  is_Some (dfaTransitions (enter nfa cur rest v st) !! cur) ∧
  dfaStates (enter nfa cur rest v st) = dfaStates st ∧
  S (pending (enter nfa cur rest v st)) = pending st.
Proof.
  intros Hq. unfold enter, pending. simpl. rewrite lookup_insert_eq, Hq.
  split_and!; [eauto|done|done].
Qed.

Lemma Inv_iteration st cur rest v :
  Inv st → dfaQueue st = cur :: rest →
  Map_get (dfaStates st) cur = Some v →
  Inv (iteration nfa cur rest v st) ∧
  S (pending (iteration nfa cur rest v st)) ≤ pending st.
Proof.
  intros HI Hq Hget.
  destruct (enter_facts st cur rest v Hq) as (E1 & E2 & E3).
  destruct (Inv_symbols (NFA.alphabet nfa) (enter nfa cur rest v st) cur v)
    as [H1 H2]; [by apply Inv_enter|done|by rewrite E2|done|].
  unfold iteration. split; [done|lia].
Qed.

Lemma at_head_Inv st : at_head nfa st → Inv st.
Proof.
  induction 1 as [|st cur rest v _ IH Hq Hget]; [apply Inv_init|].
  by apply Inv_iteration.
Qed.

Lemma visited_Inv st : visited nfa st → Inv st.
Proof.
  destruct 1 as [st H|st cur rest v done todo H Hq Hget Hal].
  - by apply at_head_Inv.
  - apply at_head_Inv in H.
    destruct (enter_facts st cur rest v Hq) as (E1 & E2 & E3).
    apply Inv_symbols; [by apply Inv_enter|done|by rewrite E2|].
    intros s Hs. rewrite Hal. apply elem_of_app. by left.
Qed.

(** The loop ends within [pending st] iterations, without a [TypeError]. *)
Lemma while_loop_ends fuel : ∀ st,
  at_head nfa st → pending st ≤ fuel →
  ∃ st', while_loop fuel nfa st = Ok st'.
Proof.
  induction fuel as [|fuel IH]; intros st Hst Hp.
  - destruct (dfaQueue st) eqn:Hq; simpl; rewrite Hq; [eauto|].
    unfold pending in Hp. rewrite Hq in Hp. simpl in Hp. lia.
  - simpl. destruct (dfaQueue st) as [|cur rest] eqn:Hq; [eauto|].
    pose proof (at_head_Inv st Hst) as HI.
    destruct (Inv_front_fresh st cur rest HI Hq) as [_ Hin].
    apply Map_get_is_Some in Hin as [v Hv]. rewrite Hv.
    apply IH; [by eapply at_head_next|].
    destruct (Inv_iteration st cur rest v HI Hq Hv). lia.
Qed.

Lemma pending_init : pending (init nfa) ≤ length (candidates U).
Proof.
  destruct start_closure_facts as (F1 & F2 & F3).
  unfold pending, init. simpl.
  assert (startKey nfa ∈ candidates U) as Hc.
  { unfold startKey. rewrite <- stateSetToString_sort.
    by apply stateSetToString_candidate. }
  pose proof (length_filter_lt (λ k, k ∉ [startKey nfa]) (candidates U)
                (startKey nfa) Hc) as Hlt.
  unfold startKey in *.
  specialize (Hlt ltac:(intros Hn; apply Hn; left)). lia.
Qed.

(** The keys are among the possible ones, hence no more than these. *)
Lemma Inv_keys_bound st : Inv st →
  length (Map_keys (dfaStates st)) ≤ length (candidates U).
Proof.
  intros HI. apply submseteq_length, NoDup_submseteq; [apply HI|].
  intros k (kv & -> & Hin)%list_elem_of_fmap. destruct kv as [k v].
  destruct (inv_entries st HI k v Hin) as (-> & ? & ? & ?).
  by apply stateSetToString_candidate.
Qed.

(** A loop that ended did so at the test of the [while], on an empty
    queue. *)
Lemma while_loop_Ok fuel : ∀ st st',
  at_head nfa st → while_loop fuel nfa st = Ok st' →
  at_head nfa st' ∧ dfaQueue st' = [].
Proof.
  induction fuel as [|fuel IH]; intros st st' Hst; simpl;
    destruct (dfaQueue st) as [|cur rest] eqn:Hq; try done.
  - by intros [= <-].
  - by intros [= <-].
  - destruct (Map_get (dfaStates st) cur) as [v|] eqn:Hv; [|done].
    apply IH. by eapply at_head_next.
Qed.
End convert.

(** More iterations do not change the result of a loop that ended. *)
Lemma while_loop_mono nfa fuel : ∀ fuel' st st',
  while_loop fuel nfa st = Ok st' → fuel ≤ fuel' →
  while_loop fuel' nfa st = Ok st'.
Proof.
  induction fuel as [|fuel IH]; intros fuel' st st' H Hle.
  - simpl in H. destruct (dfaQueue st) eqn:Hq; [|done].
    destruct fuel'; simpl; by rewrite Hq.
  - destruct fuel' as [|fuel']; [lia|]. simpl in *.
    destruct (dfaQueue st) as [|cur rest]; [done|].
    destruct (Map_get (dfaStates st) cur); [|done]. apply IH; [done|lia].
Qed.

(** ** Runs of convertNFAtoDFA *)

Lemma ends_unique nfa st1 st2 : ends nfa st1 → ends nfa st2 → st1 = st2.
Proof.
  intros [f1 H1] [f2 H2]. unfold run in *.
  apply (while_loop_mono _ _ (f1 `max` f2)) in H1; [|lia].
  apply (while_loop_mono _ _ (f1 `max` f2)) in H2; [|lia]. congruence.
Qed.

Lemma ends_convert nfa st :
  ends nfa st ↔ ∃ fuel, convertNFAtoDFA fuel nfa = Ok (to_DFA nfa st) ∧
                        run fuel nfa = Ok st.
Proof.
  split; intros [fuel H]; exists fuel.
  - split; [|done]. unfold convertNFAtoDFA. by rewrite H.
  - apply H.
Qed.

(** Every conversion ends: [2 ^ length (mentioned nfa) - 1] iterations are
    enough, whatever the NFA. *)
Lemma run_ends nfa : ∃ st, run (2 ^ length (mentioned nfa) - 1) nfa = Ok st.
Proof.
  apply (while_loop_ends nfa (mentioned nfa) (closed_under_mentioned nfa));
    [apply at_head_init|].
  etrans; [apply pending_init, closed_under_mentioned|apply length_candidates].
Qed.

Lemma ends_total nfa : ∃ st, ends nfa st.
Proof. destruct (run_ends nfa) as [st H]. exists st. by eexists. Qed.

Lemma ends_at_head nfa st : ends nfa st → at_head nfa st ∧ dfaQueue st = [].
Proof. intros [fuel H]. eapply while_loop_Ok; [apply at_head_init|exact H]. Qed.


Lemma convert_run nfa fuel dfa :
  convertNFAtoDFA fuel nfa = Ok dfa ↔
  ∃ st, run fuel nfa = Ok st ∧ dfa = to_DFA nfa st.
Proof.
  unfold convertNFAtoDFA. destruct (run fuel nfa) as [st| |]; split.
  - intros [= <-]. eauto.
  - by intros (st' & [= <-] & ->).
  - done.
  - by intros (? & ? & _).
  - done.
  - by intros (? & ? & _).
Qed.

Lemma convert_ends nfa : ∃ fuel dfa, convertNFAtoDFA fuel nfa = Ok dfa.
Proof.
  destruct (run_ends nfa) as [st H]. eexists _, _. apply convert_run. eauto.
Qed.

Lemma convertNFAtoDFA_mono nfa fuel fuel' dfa :
  convertNFAtoDFA fuel nfa = Ok dfa → fuel ≤ fuel' →
  convertNFAtoDFA fuel' nfa = Ok dfa.
Proof.
  intros (st & Hrun & ->)%convert_run Hle. apply convert_run. exists st.
  split; [|done]. by apply (while_loop_mono nfa fuel).
Qed.

(** The result does not depend on the number of iterations allowed. *)
Lemma convert_unique nfa fuel1 fuel2 dfa1 dfa2 :
  convertNFAtoDFA fuel1 nfa = Ok dfa1 → convertNFAtoDFA fuel2 nfa = Ok dfa2 →
  dfa1 = dfa2.
Proof.
  intros (st1 & H1 & ->)%convert_run (st2 & H2 & ->)%convert_run.
  f_equal. apply (ends_unique nfa); by eexists.
Qed.

(** ** The copy of convertNFAtoDFA in the README

    The README prints an earlier version of the function, whose start state
    is the array [[nfa.startState]] itself and not its epsilon-closure.  The
    two agree when the start state has no epsilon move, and differ
    otherwise. *)
Lemma start_closure_without_epsilon (T : Transitions) s :
  dests T s "" = [] → epsilonClosure [s] T = [s].
Proof.
  intros H. symmetry. apply (epsilonClosure_any_fuel T [s] 1).
  simpl. by rewrite H.
Qed.

Example readme_start_differs :
  startKey eps_nfa = "{s,t}" ∧
  stateSetToString [NFA.startState eps_nfa] = "{s}".
Proof. split; reflexivity. Qed.

(** When the key of the destination has been seen, nothing is recorded or
    queued. *)
Lemma on_symbol_seen nfa st cur v symbol :
  Map_has (dfaStates st) (stateSetToString (nextStates nfa v symbol)) = true →
  dfaStates (on_symbol nfa cur v st symbol) = dfaStates st ∧
  dfaQueue (on_symbol nfa cur v st symbol) = dfaQueue st.
Proof.
  intros H. unfold on_symbol. case_bool_decide; [|done]. by rewrite H.
Qed.


(** * The claims *)

(** C1: on the three-state example NFA (states q0, q1, q2; alphabet a, b;
    moves q0-a->{q0,q1}, q0-b->{q0}, q1-a->{q2}; start q0; accept {q2}),
    [convertNFAtoDFA] returns, once three iterations are allowed, exactly the
    DFA [example_dfa]: start key "{q0}", states "{q0}", "{q0,q1}",
    "{q0,q1,q2}" in this order, the six listed transitions and the single
    accept state "{q0,q1,q2}".  Writing the absent moves as empty arrays, as
    the example in the source does, gives the same DFA. *)
Theorem C1_three_state_example fuel :
  convertNFAtoDFA (3 + fuel) example_nfa = Ok example_dfa ∧
  convertNFAtoDFA (3 + fuel)
    (NFA.mk ["q0"; "q1"; "q2"] ["a"; "b"] example_transitions_padded "q0"
       {["q2"]}) = Ok example_dfa.
Proof.
  split; apply (convertNFAtoDFA_mono _ 3); try lia; vm_compute; reflexivity.
Qed.

(** C2: for every array of states [S] and every transition mapping [T],
    [epsilonClosure S T] is computed without failure, contains every state
    of [S], is closed under epsilon moves, and lies within every set with
    these two properties, so it is the smallest one; a state without an
    entry in [T] has no epsilon destinations. *)
Theorem C2_closure_is_least (S : list string) (T : Transitions) :
  epsilonClosure_run S T = Ok (epsilonClosure S T) ∧
  (∀ x, x ∈ S → x ∈ epsilonClosure S T) ∧
  (∀ s d, s ∈ epsilonClosure S T → d ∈ dests T s "" →
          d ∈ epsilonClosure S T) ∧
  (∀ R : string → Prop,
     (∀ x, x ∈ S → R x) → (∀ s d, R s → d ∈ dests T s "" → R d) →
     ∀ x, x ∈ epsilonClosure S T → R x) ∧
  (∀ s, T !! s = None → dests T s "" = []).
Proof.
  split_and!.
  - apply epsilonClosure_run_Ok.
  - intros x Hx. apply elem_of_epsilonClosure. by apply eps_reach_in.
  - intros s d Hs Hd. apply elem_of_epsilonClosure.
    eapply eps_reach_step; [|exact Hd]. by apply elem_of_epsilonClosure.
  - intros R HS Hcl x Hx. apply elem_of_epsilonClosure in Hx.
    induction Hx; eauto.
  - intros s Hs. unfold dests. by rewrite Hs.
Qed.




(** On tables of own entries: every conversion returns a DFA, and every key in the states list of
    the returned DFA is reachable from its start state along zero or more
    entries of its transitions. *)
Lemma table_reachability (nfa : NFA.t) :
  (∃ fuel dfa, convertNFAtoDFA fuel nfa = Ok dfa) ∧
  ∀ fuel dfa, convertNFAtoDFA fuel nfa = Ok dfa →
    ∀ key, key ∈ DFA.states dfa →
      reachable (DFA.transitions dfa) (DFA.startState dfa) key.
Proof.
  split; [apply convert_ends|].
  intros fuel dfa (st & Hrun & ->)%convert_run key Hkey. simpl in *.
  destruct (ends_at_head nfa st) as [Hh _]; [by exists fuel|].
  apply (at_head_Inv nfa _ (closed_under_mentioned nfa)) in Hh.
  by apply (inv_reach _ _ _ Hh).
Qed.


(** On tables of own entries: on a well-formed NFA the loop of [convertNFAtoDFA] ends within
    [2 ^ |states| - 1] iterations and returns a DFA with at most that many
    states, none repeated; in every loop state of a run the keys created so
    far are at most that many, none repeated, each is the canonical key of a
    non-empty array without repetition of declared states, and they are the
    handled keys followed by the queue, so a key is queued at most once; the
    test that decides whether a key is queued is made when the key is
    formed: a seen key leaves the queue as it is, a new one is appended to
    it. *)
Lemma table_termination (nfa : NFA.t) :
  well_formed nfa →
  let bound := 2 ^ length (NFA.states nfa) - 1 in
  (∃ dfa, convertNFAtoDFA bound nfa = Ok dfa ∧
          length (DFA.states dfa) ≤ bound ∧ NoDup (DFA.states dfa)) ∧
  (∀ st, visited nfa st →
     length (Map_keys (dfaStates st)) ≤ bound ∧
     NoDup (Map_keys (dfaStates st)) ∧
     (∀ k v, (k, v) ∈ dfaStates st →
        k = stateSetToString v ∧ NoDup v ∧ v ≠ [] ∧
        ∀ x, x ∈ v → x ∈ NFA.states nfa) ∧
     ∃ handled, Map_keys (dfaStates st) = handled ++ dfaQueue st) ∧
  (∀ st cur v symbol,
     let key := stateSetToString (nextStates nfa v symbol) in
     (Map_has (dfaStates st) key = true →
      dfaQueue (on_symbol nfa cur v st symbol) = dfaQueue st) ∧
     (Map_has (dfaStates st) key = false → nextStates nfa v symbol ≠ [] →
      dfaQueue (on_symbol nfa cur v st symbol) = dfaQueue st ++ [key])).
Proof.
  intros Hwf bound.
  assert (length (candidates (NFA.states nfa)) ≤ bound) as Hcand
    by apply length_candidates.
  split_and!.
  - destruct (while_loop_ends nfa (NFA.states nfa) Hwf bound (init nfa))
      as [st Hst];
      [apply at_head_init|etrans; [apply (pending_init nfa _ Hwf)|done]|].
    exists (to_DFA nfa st). split; [apply convert_run; eauto|].
    destruct (ends_at_head nfa st) as [Hh _]; [by exists bound|].
    apply (at_head_Inv nfa _ Hwf) in Hh. simpl. split; [|apply Hh].
    etrans; [by apply (Inv_keys_bound nfa (NFA.states nfa))|done].
  - intros st Hv. apply (visited_Inv nfa _ Hwf) in Hv. split_and!.
    + etrans; [by apply (Inv_keys_bound nfa (NFA.states nfa))|done].
    + apply Hv.
    + apply Hv.
    + destruct (inv_queue _ _ _ Hv) as (handled & ? & _). eauto.
  - intros st cur v symbol key. split.
    + intros H. by apply on_symbol_seen.
    + intros H Hne. unfold on_symbol. rewrite bool_decide_eq_true_2.
      * fold key. by rewrite H.
      * destruct (nextStates nfa v symbol); simpl; [done|lia].
Qed.

(** C9: for every array of states [S] and every transition mapping [T],
    the closure of the closure of [S] is the closure of [S]: the same array,
    hence the same set. *)
Theorem C9_closure_idempotent (S : list string) (T : Transitions) :
  epsilonClosure (epsilonClosure S T) T = epsilonClosure S T ∧
  ∀ x, x ∈ epsilonClosure (epsilonClosure S T) T ↔ x ∈ epsilonClosure S T.
Proof.
  pose proof (epsilonClosure_idemp T S) as H. split; [done|].
  intros x. by rewrite H.
Qed.


(** The three-state example is well formed. *)
Lemma example_well_formed : well_formed example_nfa.
Proof.
  split; [left|]. intros s symbol d Hs Hsym Hd. simpl in *.
  assert (s = "q0" ∨ s = "q1" ∨ s = "q2") as Hs' by set_solver.
  assert (symbol = "" ∨ symbol = "a" ∨ symbol = "b") as Hsym' by set_solver.
  clear Hs Hsym.
  destruct Hs' as [->|[->| ->]], Hsym' as [->|[->| ->]];
    vm_compute in Hd; set_solver.
Qed.

Lemma table_termination_example :
  ∃ dfa, convertNFAtoDFA (2 ^ 3 - 1) example_nfa = Ok dfa ∧
         length (DFA.states dfa) ≤ 2 ^ 3 - 1 ∧ NoDup (DFA.states dfa).
Proof. exact (proj1 (table_termination example_nfa example_well_formed)). Qed.

(** * Further properties of the conversion *)

(** ** What the returned DFA records, exactly *)

(** The keys handled so far: the recorded keys that are no longer queued. *)
Definition handled (st : LoopState) : list string :=
  take (length (Map_keys (dfaStates st)) - length (dfaQueue st))
    (Map_keys (dfaStates st)).

(** [currentNfaStates.some((state) => nfa.acceptStates.has(state))] on the
    array recorded for a key. *)
Definition accepting (nfa : NFA.t) (m : list (string * list string))
  (k : string) : bool :=
  match Map_get m k with
  | Some v => existsb (λ state, bool_decide (state ∈ NFA.acceptStates nfa)) v
  | None => false
  end.

(** The two ways the body of the [for] changes the loop state. *)
Lemma on_symbol_cases nfa cur v st symbol :
  let next := nextStates nfa v symbol in
  let key := stateSetToString next in
  let st' := on_symbol nfa cur v st symbol in
  (next = [] ∧ st' = st) ∨
  (next ≠ [] ∧
   dfaTransitions st' =
     alter (λ m, <[symbol := key]> m) cur (dfaTransitions st) ∧
   dfaAcceptStates st' = dfaAcceptStates st ∧
   ((key ∈ Map_keys (dfaStates st) ∧ dfaStates st' = dfaStates st ∧
     dfaQueue st' = dfaQueue st) ∨
    (key ∉ Map_keys (dfaStates st) ∧
     dfaStates st' = dfaStates st ++ [(key, sort next)] ∧
     dfaQueue st' = dfaQueue st ++ [key]))).
Proof.
  intros next key st'. unfold st', on_symbol. fold next. fold key.
  case_bool_decide as Hlen.
  - right. split; [intros Hn; rewrite Hn in Hlen; simpl in Hlen; lia|].
    destruct (Map_has (dfaStates st) key) eqn:Hhas; simpl.
    + apply Map_has_true in Hhas. split_and!; [done..|]. by left.
    + apply Map_has_false in Hhas. split_and!; [done..|]. right.
      by rewrite Map_set_fresh.
  - left. split; [|done]. destruct next; [done|]. simpl in Hlen. lia.
Qed.

Lemma on_symbol_get_stable nfa cur v st symbol k w :
  Map_get (dfaStates st) k = Some w →
  Map_get (dfaStates (on_symbol nfa cur v st symbol)) k = Some w.
Proof.
  intros H.
  destruct (on_symbol_cases nfa cur v st symbol)
    as [[_ ->]|(_ & _ & _ & [(_ & -> & _)|(_ & -> & _)])]; try done.
  by apply Map_get_app_l.
Qed.

Lemma handled_app (st : LoopState) done :
  Map_keys (dfaStates st) = done ++ dfaQueue st → handled st = done.
Proof.
  intros H. unfold handled. rewrite H, length_app.
  replace (length done + length (dfaQueue st) - length (dfaQueue st))
    with (length done) by lia.
  apply take_app_length.
Qed.

Lemma filter_agree {A} (P Q : A → Prop) `{!∀ x, Decision (P x)}
  `{!∀ x, Decision (Q x)} (l : list A) :
  (∀ x, x ∈ l → P x ↔ Q x) → filter P l = filter Q l.
Proof.
  induction l as [|x l IH]; intros Hl; [done|]. rewrite !filter_cons.
  rewrite IH by (intros y Hy; apply Hl; by right).
  destruct (decide (P x)) as [HP|HP], (decide (Q x)) as [HQ|HQ]; try done.
  - exfalso. apply HQ, (Hl x); [left|done].
  - exfalso. apply HP, (Hl x); [left|done].
Qed.

Section exact.
Variable nfa : NFA.t.

(** Further facts kept by the loop: the accept list is the handled keys
    whose arrays meet the accept states, in the order they were handled;
    the start key is the first entry; the recorded arrays are sorted. *)
Record Inv2 (st : LoopState) : Prop := {
  inv2_accept : dfaAcceptStates st =
    filter (λ k, accepting nfa (dfaStates st) k = true) (handled st);
  inv2_first : ∃ rest, dfaStates st =
    (startKey nfa,
     sort (epsilonClosure [NFA.startState nfa] (NFA.transitions nfa))) :: rest;
  inv2_sorted : ∀ k v, (k, v) ∈ dfaStates st → sort v = v
}.

(** The transitions of the handled keys are complete: with [cur] the key
    being handled and [seen] the symbols done for it, every handled key has
    its entry for every symbol of the alphabet with a non-empty
    destination ([cur]: for the symbols of [seen]). *)
Definition Complete (cur : option string) (seen : list string)
  (st : LoopState) : Prop :=
  ∀ k v m symbol,
    dfaTransitions st !! k = Some m → Map_get (dfaStates st) k = Some v →
    (if decide (cur = Some k) then symbol ∈ seen
     else symbol ∈ NFA.alphabet nfa) →
    nextStates nfa v symbol ≠ [] →
    m !! symbol = Some (stateSetToString (nextStates nfa v symbol)).

Let U := mentioned nfa.
Let HU := closed_under_mentioned nfa.

Lemma Inv2_init : Inv2 (init nfa) ∧ Complete None [] (init nfa).
Proof.
  split; [split|]; simpl.
  - done.
  - eauto.
  - intros k v [= _ ->]%list_elem_of_singleton. apply sort_sort.
  - intros k v m symbol Hm. unfold init in Hm. simpl in Hm.
    by rewrite lookup_empty in Hm.
Qed.

Lemma Inv2_enter st cur rest v :
  Inv nfa U st → Inv2 st → Complete None [] st →
  dfaQueue st = cur :: rest → Map_get (dfaStates st) cur = Some v →
  Inv2 (enter nfa cur rest v st) ∧ Complete (Some cur) [] (enter nfa cur rest v st).
Proof.
  intros HI [Hacc Hfirst Hsorted] Hc Hq Hget.
  destruct (Inv_front_fresh nfa U st cur rest HI Hq) as [Hnone Hin].
  destruct (inv_queue _ _ _ HI) as (done & Hk & Hd).
  pose proof (inv_keys _ _ _ HI) as Hnd.
  assert (cur ∉ done) as Hcur.
  { rewrite Hk, Hq in Hnd. apply NoDup_app in Hnd as (_ & Hdis & _).
    intros Hc'. apply (Hdis cur Hc'). left. }
  split; [split|]; simpl; try done.
  - rewrite Hacc, (handled_app st done Hk).
    rewrite (handled_app (enter nfa cur rest v st) (done ++ [cur]))
      by (simpl; by rewrite Hk, Hq, <- (assoc_L (++))).
    rewrite filter_app, filter_singleton by done.
    assert (accepting nfa (dfaStates st) cur =
            existsb (λ state, bool_decide (state ∈ NFA.acceptStates nfa)) v)
      as -> by (unfold accepting; by rewrite Hget).
    destruct (existsb _ v).
    + rewrite decide_True by done. unfold set_add.
      replace (set_has _ cur) with false; [done|].
      symmetry. apply set_has_false. rewrite list_elem_of_filter. tauto.
    + rewrite decide_False by done. by rewrite app_nil_r.
  - intros k w m symbol Hm Hw Hsym Hne. simpl in *.
    destruct (decide (Some cur = Some k)) as [[= <-]|Hne'].
    + by apply elem_of_nil in Hsym.
    + rewrite lookup_insert_ne in Hm by congruence.
      by apply (Hc k w m symbol).
Qed.

Lemma Inv2_on_symbol st cur v seen symbol :
  Inv nfa U st → Inv2 st → Complete (Some cur) seen st →
  is_Some (dfaTransitions st !! cur) →
  Map_get (dfaStates st) cur = Some v → symbol ∈ NFA.alphabet nfa →
  Inv2 (on_symbol nfa cur v st symbol) ∧
  Complete (Some cur) (seen ++ [symbol]) (on_symbol nfa cur v st symbol).
Proof.
  intros HI [Hacc Hfirst Hsorted] Hc Hcur Hget Hsym.
  destruct (inv_queue _ _ _ HI) as (done & Hk & Hd).
  assert (∀ k w, is_Some (dfaTransitions st !! k) →
            Map_get (dfaStates (on_symbol nfa cur v st symbol)) k = Some w →
            Map_get (dfaStates st) k = Some w) as Hback.
  { intros k w Hs Hw.
    assert (is_Some (Map_get (dfaStates st) k)) as [w' Hw'].
    { apply Map_get_is_Some. rewrite Hk. apply elem_of_app. left. by apply Hd. }
    rewrite (on_symbol_get_stable nfa cur v st symbol k w' Hw') in Hw.
    by injection Hw as <-. }
  destruct (on_symbol_cases nfa cur v st symbol)
    as [[Hnil Hst]|(Hne & Hδ & Ha & Hcase)].
  { rewrite Hst. split; [done|].
    intros k w m symbol' Hm Hw Hin Hne. apply (Hc k w m symbol'); try done.
    destruct (decide (Some cur = Some k)) as [[= <-]|]; [|done].
    apply elem_of_app in Hin as [?|Hin]; [done|].
    apply list_elem_of_singleton in Hin as ->.
    rewrite Hget in Hw. injection Hw as <-. done. }
  split; [split|].
  - rewrite Ha, Hacc.
    assert (handled (on_symbol nfa cur v st symbol) = handled st) as ->.
    { rewrite (handled_app st done Hk). apply handled_app.
      destruct Hcase as [(_ & -> & ->)|(_ & -> & ->)]; [done|].
      unfold Map_keys in *. by rewrite fmap_app, Hk, <- (assoc_L (++)). }
    apply filter_agree. intros k Hkin. rewrite (handled_app st done Hk) in Hkin.
    assert (is_Some (Map_get (dfaStates st) k)) as [w Hw].
    { apply Map_get_is_Some. rewrite Hk. apply elem_of_app. by left. }
    unfold accepting.
    by rewrite Hw, (on_symbol_get_stable nfa cur v st symbol k w Hw).
  - destruct Hfirst as [rest Hrest].
    destruct Hcase as [(_ & -> & _)|(_ & -> & _)]; [eauto|].
    rewrite Hrest. eauto.
  - destruct Hcase as [(_ & -> & _)|(_ & -> & _)]; [done|].
    intros k w [Hin|[= _ ->]%list_elem_of_singleton]%elem_of_app; [eauto|].
    apply sort_sort.
  - intros k w m symbol' Hm Hw Hin Hne'. rewrite Hδ in Hm.
    apply lookup_record in Hm as [(Hkne & Hm)|(-> & m0 & Hm0 & ->)].
    + apply (Hc k w m symbol'); try done.
      * apply Hback; [by rewrite Hm|done].
      * rewrite decide_False in Hin by congruence.
        by rewrite decide_False by congruence.
    + rewrite decide_True in Hin by done.
      assert (w = v) as ->.
      { apply Hback in Hw; [|done]. rewrite Hget in Hw. by injection Hw. }
      destruct (decide (symbol' = symbol)) as [->|Hsne].
      * by rewrite lookup_insert_eq.
      * rewrite lookup_insert_ne by done.
        apply (Hc cur v m0 symbol'); try done. rewrite decide_True by done.
        apply elem_of_app in Hin as [?|Hin]; [done|].
        by apply list_elem_of_singleton in Hin.
Qed.

Lemma Inv2_symbols symbols : ∀ st cur v seen,
  Inv nfa U st → Inv2 st → Complete (Some cur) seen st →
  is_Some (dfaTransitions st !! cur) →
  Map_get (dfaStates st) cur = Some v →
  (∀ symbol, symbol ∈ symbols → symbol ∈ NFA.alphabet nfa) →
  Inv2 (foldl (on_symbol nfa cur v) st symbols) ∧
  Complete (Some cur) (seen ++ symbols) (foldl (on_symbol nfa cur v) st symbols).
Proof.
  induction symbols as [|symbol symbols IH];
    intros st cur v seen HI H2 Hc Hcur Hget Hsub; simpl.
  - by rewrite app_nil_r.
  - assert (symbol ∈ NFA.alphabet nfa) as Hsym by (apply Hsub; left).
    destruct (Inv_on_symbol nfa U HU st cur v symbol) as (I1 & I2 & I3 & _);
      [done..|].
    destruct (Inv2_on_symbol st cur v seen symbol) as [J1 J2]; [done..|].
    rewrite (assoc_L (++) seen [symbol] symbols : seen ++ symbol :: symbols = _).
    apply IH; try done. intros s Hs. apply Hsub. by right.
Qed.

Lemma Inv2_iteration st cur rest v :
  Inv nfa U st → Inv2 st → Complete None [] st →
  dfaQueue st = cur :: rest → Map_get (dfaStates st) cur = Some v →
  Inv2 (iteration nfa cur rest v st) ∧
  Complete None [] (iteration nfa cur rest v st).
Proof.
  intros HI H2 Hc Hq Hget.
  destruct (Inv2_enter st cur rest v) as [E1 E2]; [done..|].
  destruct (enter_facts nfa U st cur rest v Hq) as (F1 & F2 & _).
  destruct (Inv2_symbols (NFA.alphabet nfa) (enter nfa cur rest v st) cur v [])
    as [G1 G2]; [by apply Inv_enter|done|done|done|by rewrite F2|done|].
  split; [done|]. intros k w m symbol Hm Hw Hsym Hne. simpl in Hsym.
  apply (G2 k w m symbol); try done. by destruct (decide _).
Qed.

Lemma at_head_Inv2 st : at_head nfa st → Inv2 st ∧ Complete None [] st.
Proof.
  induction 1 as [|st cur rest v Hh [IH1 IH2] Hq Hget]; [apply Inv2_init|].
  apply Inv2_iteration; try done. by apply at_head_Inv.
Qed.
End exact.

(** ** The number of iterations *)

Lemma on_symbol_balance nfa cur v st symbol :
  length (Map_keys (dfaStates (on_symbol nfa cur v st symbol))) +
  length (dfaQueue st) =
  length (Map_keys (dfaStates st)) +
  length (dfaQueue (on_symbol nfa cur v st symbol)).
Proof.
  destruct (on_symbol_cases nfa cur v st symbol)
    as [[_ ->]|(_ & _ & _ & [(_ & -> & ->)|(_ & -> & ->)])]; try done.
  unfold Map_keys. rewrite fmap_app, !length_app. simpl. lia.
Qed.

Lemma on_symbols_balance nfa cur v symbols : ∀ st,
  length (Map_keys (dfaStates (foldl (on_symbol nfa cur v) st symbols))) +
  length (dfaQueue st) =
  length (Map_keys (dfaStates st)) +
  length (dfaQueue (foldl (on_symbol nfa cur v) st symbols)).
Proof.
  induction symbols as [|symbol symbols IH]; intros st; simpl; [done|].
  pose proof (IH (on_symbol nfa cur v st symbol)).
  pose proof (on_symbol_balance nfa cur v st symbol). lia.
Qed.

(** A loop that ends takes one iteration for each key it still handles:
    with fewer iterations allowed it is out of fuel, and with that many or
    more it gives the same state. *)
Lemma while_loop_count nfa fuel : ∀ st st',
  while_loop fuel nfa st = Ok st' →
  ∃ n, length (Map_keys (dfaStates st')) + length (dfaQueue st) =
       length (Map_keys (dfaStates st)) + n ∧
       ∀ f, while_loop f nfa st =
            if decide (n ≤ f) then Ok st' else OutOfFuel.
Proof.
  induction fuel as [|fuel IH]; intros st st' H; simpl in H;
    destruct (dfaQueue st) as [|cur rest] eqn:Hq; try done.
  - injection H as <-. exists 0. split; [simpl; lia|].
    intros f. rewrite decide_True by lia. destruct f; simpl; by rewrite Hq.
  - injection H as <-. exists 0. split; [simpl; lia|].
    intros f. rewrite decide_True by lia. destruct f; simpl; by rewrite Hq.
  - destruct (Map_get (dfaStates st) cur) as [v|] eqn:Hv; [|done].
    destruct (IH _ _ H) as (n & Hn & Hf). exists (S n). split.
    + pose proof (on_symbols_balance nfa cur v (NFA.alphabet nfa)
                    (enter nfa cur rest v st)) as Hb.
      fold (iteration nfa cur rest v st) in Hb. simpl in *. lia.
    + intros [|f]; simpl; rewrite Hq; [done|]. rewrite Hv, Hf.
      destruct (decide (n ≤ f)), (decide (S n ≤ S f)); try done; lia.
Qed.

(** [convertNFAtoDFA] returns [dfa] on [nfa], its loop ending in state
    [st]: it does so whenever as many iterations are allowed as the DFA has
    states, and is out of fuel with fewer; it never throws. *)
Definition converts (nfa : NFA.t) (st : LoopState) (dfa : DFA.t) : Prop :=
  dfa = to_DFA nfa st ∧
  ∀ fuel,
    run fuel nfa =
      (if decide (length (DFA.states dfa) ≤ fuel) then Ok st else OutOfFuel) ∧
    convertNFAtoDFA fuel nfa =
      (if decide (length (DFA.states dfa) ≤ fuel) then Ok dfa else OutOfFuel).

Lemma ends_converts nfa st : ends nfa st → converts nfa st (to_DFA nfa st).
Proof.
  intros [fuel H]. split; [done|]. unfold run in H.
  destruct (while_loop_count nfa fuel _ _ H) as (n & Hn & Hf).
  assert (n = length (Map_keys (dfaStates st))) as ->
    by (unfold init in Hn; simpl in Hn; lia).
  intros f. simpl. unfold convertNFAtoDFA, run. rewrite Hf.
  by destruct (decide _).
Qed.

Lemma converts_exists nfa : ∃ st dfa, converts nfa st dfa.
Proof.
  destruct (ends_total nfa) as [st H]. eexists _, _. by apply ends_converts.
Qed.

Lemma converts_ends nfa st dfa : converts nfa st dfa → ends nfa st.
Proof.
  intros [-> H]. exists (length (DFA.states (to_DFA nfa st))).
  destruct (H (length (DFA.states (to_DFA nfa st)))) as [Hr _].
  by rewrite decide_True in Hr by lia.
Qed.

(** The facts kept by the loop, at the end of a conversion. *)
Lemma converts_Inv nfa st dfa :
  converts nfa st dfa →
  Inv nfa (mentioned nfa) st ∧ Inv2 nfa st ∧ Complete nfa None [] st ∧
  dfaQueue st = [] ∧ handled st = Map_keys (dfaStates st).
Proof.
  intros [Hh Hq]%converts_ends%ends_at_head.
  destruct (at_head_Inv2 nfa st Hh) as [H2 Hc].
  split_and!; try done.
  - by apply at_head_Inv; [apply closed_under_mentioned|].
  - apply handled_app. by rewrite Hq, app_nil_r.
Qed.

(** On tables of own entries: the loop of [convertNFAtoDFA] runs exactly once for each state of
    the DFA it returns: for every NFA there is a DFA that is returned
    whenever at least that many iterations are allowed, while fewer run out;
    no run throws a [TypeError], that is, [dfaStates.get] always finds the
    dequeued key. *)
Lemma table_one_iteration_per_state (nfa : NFA.t) :
  ∃ dfa, ∀ fuel,
    convertNFAtoDFA fuel nfa =
      if decide (length (DFA.states dfa) ≤ fuel) then Ok dfa else OutOfFuel.
Proof.
  destruct (converts_exists nfa) as (st & dfa & _ & H). exists dfa.
  intros fuel. apply H.
Qed.

(** On tables of own entries: the transitions of the returned DFA are exactly these: every state
    of the DFA has an entry, no other key has one, and the entry of a state
    with recorded array [v] maps a symbol to the canonical key of the
    epsilon-closure of the destinations of [v] when the symbol is in the
    alphabet and that closure is not empty, and has nothing for any other
    symbol. *)
Lemma table_transitions_exact (nfa : NFA.t) :
  ∃ st dfa, converts nfa st dfa ∧
    (∀ key, is_Some (DFA.transitions dfa !! key) ↔ key ∈ DFA.states dfa) ∧
    ∀ key, key ∈ DFA.states dfa →
      ∃ v m, Map_get (dfaStates st) key = Some v ∧
             DFA.transitions dfa !! key = Some m ∧
             ∀ symbol,
               m !! symbol =
                 if decide (symbol ∈ NFA.alphabet nfa ∧
                            nextStates nfa v symbol ≠ [])
                 then Some (stateSetToString (nextStates nfa v symbol))
                 else None.
Proof.
  destruct (converts_exists nfa) as (st & dfa & Hc). exists st, dfa.
  split; [done|].
  destruct (converts_Inv nfa st dfa Hc) as (HI & H2 & Hcomp & Hq & Hh).
  destruct Hc as [-> _]. simpl.
  destruct (inv_queue _ _ _ HI) as (done & Hk & Hd).
  rewrite Hq, app_nil_r in Hk. subst done.
  split; [intros key; by rewrite Hd|].
  intros key Hkey.
  destruct (proj2 (Map_get_is_Some _ _) Hkey) as [v Hv].
  destruct (proj1 (Hd key) Hkey) as [m Hm]. exists v, m.
  split_and!; [done..|]. intros symbol.
  destruct (decide _) as [[Hsym Hne]|Hno].
  - by apply (Hcomp key v m symbol).
  - destruct (m !! symbol) as [k'|] eqn:Hs; [|done]. exfalso. apply Hno.
    destruct (inv_trans _ _ _ HI _ _ _ _ Hm Hs) as (? & _ & w & Hw & ? & _).
    rewrite Hv in Hw. by injection Hw as <-.
Qed.



(** ** Further properties of epsilonClosure *)

Lemma eps_reach_mono T S1 S2 x :
  (∀ y, y ∈ S1 → y ∈ S2) → eps_reach T S1 x → eps_reach T S2 x.
Proof.
  intros Hsub. induction 1 as [x Hx|s d _ IH Hd].
  - apply eps_reach_in. auto.
  - by eapply eps_reach_step.
Qed.

Lemma eps_reach_app T S1 S2 x :
  eps_reach T (S1 ++ S2) x ↔ eps_reach T S1 x ∨ eps_reach T S2 x.
Proof.
  split.
  - induction 1 as [x [Hx|Hx]%elem_of_app|s d _ [IH|IH] Hd].
    + left. by apply eps_reach_in.
    + right. by apply eps_reach_in.
    + left. by eapply eps_reach_step.
    + right. by eapply eps_reach_step.
  - intros [H|H]; revert H; apply eps_reach_mono; intros y Hy;
      apply elem_of_app; auto.
Qed.

Lemma foldl_visit_prefix ds : ∀ c s,
  ∃ extra, (foldl visit (c, s) ds).1 = c ++ extra ∧
           ∀ x, x ∈ extra → x ∈ ds.
Proof.
  induction ds as [|d ds IH]; intros c s; simpl.
  - exists []. split; [by rewrite app_nil_r|]. by intros x ?%elem_of_nil.
  - unfold visit at 2. simpl. destruct (set_has c d).
    + destruct (IH c s) as (extra & -> & Hin). exists extra.
      split; [done|]. intros x Hx. right. auto.
    + destruct (IH (c ++ [d]) (d :: s)) as (extra & -> & Hin).
      exists (d :: extra). split; [by rewrite <- (assoc_L (++))|].
      intros x [->|Hx]%elem_of_cons; [left|right; auto].
Qed.

Lemma closure_loop_prefix T fuel : ∀ c s r,
  closure_loop fuel T c s = Ok r →
  ∃ found, r = c ++ found ∧ ∀ x, x ∈ found → x ∈ eps_targets T.
Proof.
  induction fuel as [|fuel IH]; intros c s r H; simpl in H;
    destruct s as [|x rest]; try done.
  - injection H as <-. exists []. split; [by rewrite app_nil_r|].
    by intros x ?%elem_of_nil.
  - injection H as <-. exists []. split; [by rewrite app_nil_r|].
    by intros x ?%elem_of_nil.
  - destruct (foldl_visit_prefix (dests T x "") c rest) as (extra & He & Hin).
    rewrite He in H. apply IH in H as (found & -> & Hf).
    exists (extra ++ found). split; [by rewrite (assoc_L (++))|].
    intros y [Hy|Hy]%elem_of_app; [|auto].
    eapply dests_eps_targets. eauto.
Qed.

(** X5: as a set, the epsilon-closure of two arrays put together is the
    union of their closures; in particular a closure only grows when states
    are added to the input. *)
Theorem X5_closure_of_union (S1 S2 : list string) (T : Transitions) :
  ∀ x, x ∈ epsilonClosure (S1 ++ S2) T ↔
       x ∈ epsilonClosure S1 T ∨ x ∈ epsilonClosure S2 T.
Proof. intros x. by rewrite !elem_of_epsilonClosure, eps_reach_app. Qed.

(** X6: the order and the repetitions of the input array do not matter to
    the result as a set: two arrays with the same members have closures
    with the same members, and these closures have the same canonical
    key. *)
Theorem X6_closure_order_independent (S1 S2 : list string) (T : Transitions) :
  (∀ x, x ∈ S1 ↔ x ∈ S2) →
  (∀ x, x ∈ epsilonClosure S1 T ↔ x ∈ epsilonClosure S2 T) ∧
  stateSetToString (epsilonClosure S1 T) =
  stateSetToString (epsilonClosure S2 T).
Proof.
  intros H.
  assert (∀ x, x ∈ epsilonClosure S1 T ↔ x ∈ epsilonClosure S2 T) as Hset.
  { intros x. rewrite !elem_of_epsilonClosure.
    split; apply eps_reach_mono; intros y; apply H. }
  split; [done|].
  apply stateSetToString_set; [apply NoDup_epsilonClosure..|done].
Qed.

Lemma X6_closure_order_independent_witness :
  stateSetToString (epsilonClosure ["a"; "c"] eps_cycle) =
  stateSetToString (epsilonClosure ["c"; "a"; "c"] eps_cycle).
Proof.
  apply (X6_closure_order_independent ["a"; "c"] ["c"; "a"; "c"] eps_cycle).
  intros x. rewrite !elem_of_cons, !elem_of_nil. tauto.
Defined.

(** X7: the array returned by [epsilonClosure] has no repetition and starts
    with the input states in their order of first occurrence; the states
    after these are destinations of epsilon moves. *)
Theorem X7_closure_lists_input_first (S : list string) (T : Transitions) :
  NoDup (epsilonClosure S T) ∧
  ∃ found, epsilonClosure S T = new_Set S ++ found ∧
           ∀ x, x ∈ found → x ∈ eps_targets T ∧ x ∉ S.
Proof.
  pose proof (NoDup_epsilonClosure T S) as Hnd. split; [done|].
  destruct (closure_loop_prefix T _ _ _ _ (epsilonClosure_run_Ok T S))
    as (found & Hf & Hin).
  exists found. split; [done|]. intros x Hx. split; [auto|].
  rewrite Hf in Hnd. apply NoDup_app in Hnd as (_ & Hdis & _).
  intros HS. apply (Hdis x); [by apply elem_of_new_Set|done].
Qed.

(** X8: when no state of the input array has an epsilon move, the closure
    is the input array with its repetitions removed (first occurrences
    kept). *)
Theorem X8_closure_without_epsilon (S : list string) (T : Transitions) :
  (∀ s, s ∈ S → dests T s "" = []) → epsilonClosure S T = new_Set S.
Proof.
  intros H. symmetry.
  apply (epsilonClosure_any_fuel T S (length S)).
  apply closure_loop_closed; [|by rewrite length_reverse].
  intros s d Hs Hd. rewrite elem_of_reverse in Hs.
  rewrite (H s Hs) in Hd. by apply elem_of_nil in Hd.
Qed.

Lemma X8_closure_without_epsilon_witness :
  epsilonClosure ["c"; "z"; "c"] eps_cycle = new_Set ["c"; "z"; "c"].
Proof.
  apply (X8_closure_without_epsilon ["c"; "z"; "c"] eps_cycle).
  intros s Hs. rewrite !elem_of_cons, elem_of_nil in Hs.
  destruct Hs as [->|[->|[->|[]]]]; reflexivity.
Defined.

(** ** When canonical keys tell sets apart *)

(** The identifier contains a comma. *)
Fixpoint has_comma (s : string) : bool :=
  match s with
  | EmptyString => false
  | String c s' => Ascii.eqb c ","%char || has_comma s'
  end.

Lemma append_comma_inj x : ∀ y s t,
  has_comma x = false → has_comma y = false →
  x +:+ String ","%char s = y +:+ String ","%char t → x = y ∧ s = t.
Proof.
  induction x as [|c x IH]; intros [|c' y] s t Hx Hy H; simpl in *.
  - by injection H as ->.
  - injection H as <- _. by rewrite Ascii.eqb_refl in Hy.
  - injection H as -> _. by rewrite Ascii.eqb_refl in Hx.
  - injection H as -> H. apply orb_false_iff in Hx as [_ Hx].
    apply orb_false_iff in Hy as [_ Hy].
    destruct (IH y s t Hx Hy H) as [-> ->]. done.
Qed.

Lemma no_comma_not_app x : ∀ y t,
  has_comma x = false → x ≠ y +:+ String ","%char t.
Proof.
  induction x as [|c x IH]; intros [|c' y] t Hx H; simpl in *; try done.
  - injection H as -> _. by rewrite Ascii.eqb_refl in Hx.
  - injection H as -> H. apply orb_false_iff in Hx as [_ Hx]. by eapply IH.
Qed.

Lemma join_cons_cons x y l :
  join "," (x :: y :: l) = x +:+ String ","%char (join "," (y :: l)).
Proof. done. Qed.

(** Joining with commas loses nothing when no member contains a comma and
    the array is not empty. *)
Lemma join_comma_inj l1 : ∀ l2,
  l1 ≠ [] → l2 ≠ [] →
  (∀ x, x ∈ l1 → has_comma x = false) →
  (∀ x, x ∈ l2 → has_comma x = false) →
  join "," l1 = join "," l2 → l1 = l2.
Proof.
  induction l1 as [|x l1 IH]; intros [|y l2] H1 H2 Hc1 Hc2 H; try done.
  assert (has_comma x = false) as Hx by (apply Hc1; left).
  assert (has_comma y = false) as Hy by (apply Hc2; left).
  destruct l1 as [|x' l1], l2 as [|y' l2].
  - simpl in H. by rewrite H.
  - rewrite join_cons_cons in H. simpl in H. by apply no_comma_not_app in H.
  - rewrite join_cons_cons in H. simpl in H. symmetry in H.
    by apply no_comma_not_app in H.
  - rewrite !join_cons_cons in H.
    apply append_comma_inj in H as [-> H]; [|done..]. f_equal.
    apply IH; try done; intros z Hz; [apply Hc1|apply Hc2]; by right.
Qed.

Lemma append_brace_inj a : ∀ b, a +:+ "}" = b +:+ "}" → a = b.
Proof.
  induction a as [|c a IH]; intros [|c' b] H; simpl in *; try done.
  - injection H as _ H. by destruct b.
  - injection H as _ H. by destruct a.
  - injection H as -> H. f_equal. auto.
Qed.

Lemma stateSetToString_inj l1 l2 :
  l1 ≠ [] → l2 ≠ [] →
  (∀ x, x ∈ l1 → has_comma x = false) →
  (∀ x, x ∈ l2 → has_comma x = false) →
  stateSetToString l1 = stateSetToString l2 → sort l1 = sort l2.
Proof.
  intros H1 H2 Hc1 Hc2 H. unfold stateSetToString in H. simpl in H.
  injection H as H. apply append_brace_inj in H.
  apply join_comma_inj in H; [done| | | |].
  - intros Hn. by apply sort_nil_inv in Hn.
  - intros Hn. by apply sort_nil_inv in Hn.
  - intros x. rewrite elem_of_sort. auto.
  - intros x. rewrite elem_of_sort. auto.
Qed.

(** X9: on non-empty arrays of identifiers without commas, two arrays have
    the same canonical key exactly when one is a rearrangement of the
    other. *)
Theorem X9_key_identifies_set (l1 l2 : list string) :
  l1 ≠ [] → l2 ≠ [] →
  (∀ x, x ∈ l1 → has_comma x = false) →
  (∀ x, x ∈ l2 → has_comma x = false) →
  stateSetToString l1 = stateSetToString l2 ↔ l1 ≡ₚ l2.
Proof.
  intros H1 H2 Hc1 Hc2. split.
  - intros H%stateSetToString_inj; try done.
    by rewrite <- (sort_Permutation l1), H, sort_Permutation.
  - intros H. unfold stateSetToString. by rewrite (sort_perm l1 l2).
Qed.

Lemma X9_key_identifies_set_witness :
  stateSetToString ["q1"; "q0"] = stateSetToString ["q0"; "q1"] ↔
  ["q1"; "q0"] ≡ₚ ["q0"; "q1"].
Proof.
  apply (X9_key_identifies_set ["q1"; "q0"] ["q0"; "q1"]); try done;
    intros x Hx; rewrite !elem_of_cons, elem_of_nil in Hx;
    destruct Hx as [->|[->|[]]]; reflexivity.
Defined.

(** ** The languages of the two automata *)

(** A run of the NFA from a state, on a word, to a state: an epsilon move
    consumes nothing, a move on a symbol consumes that symbol. *)
Inductive nfa_path (nfa : NFA.t) : string → list string → string → Prop :=
| path_stop q : nfa_path nfa q [] q
| path_eps q d w q' :
    d ∈ dests (NFA.transitions nfa) q "" → nfa_path nfa d w q' →
    nfa_path nfa q w q'
| path_symbol q a d w q' :
    d ∈ dests (NFA.transitions nfa) q a → nfa_path nfa d w q' →
    nfa_path nfa q (a :: w) q'.

Definition nfa_accepts (nfa : NFA.t) (w : list string) : Prop :=
  ∃ q, nfa_path nfa (NFA.startState nfa) w q ∧ q ∈ NFA.acceptStates nfa.

(** A run of the DFA: a missing entry rejects. *)
Fixpoint dfa_run (δ : gmap string (gmap string string)) (k : string)
  (w : list string) : option string :=
  match w with
  | [] => Some k
  | a :: w' =>
      match δ !! k ≫= λ m, m !! a with
      | Some k' => dfa_run δ k' w'
      | None => None
      end
  end.

Definition dfa_accepts (dfa : DFA.t) (w : list string) : Prop :=
  ∃ k, dfa_run (DFA.transitions dfa) (DFA.startState dfa) w = Some k ∧
       k ∈ DFA.acceptStates dfa.

Section language.
Variable nfa : NFA.t.

(** The set is closed under epsilon moves. *)
Definition eps_closed (X : list string) : Prop :=
  ∀ p d, p ∈ X → d ∈ dests (NFA.transitions nfa) p "" → d ∈ X.

Lemma eps_closed_closure S : eps_closed (epsilonClosure S (NFA.transitions nfa)).
Proof.
  intros p d Hp Hd. apply elem_of_epsilonClosure.
  eapply eps_reach_step; [|exact Hd]. by apply elem_of_epsilonClosure.
Qed.

Lemma path_nil_closed p w q :
  nfa_path nfa p w q → w = [] → ∀ X, eps_closed X → p ∈ X → q ∈ X.
Proof.
  induction 1 as [q|q d w q' Hd _ IH|q a d w q' Hd _ IH]; intros Hw X HX Hp;
    [done| |done].
  apply IH; [done..|]. by eapply HX.
Qed.

Lemma path_first_symbol p w q :
  nfa_path nfa p w q → ∀ a w', w = a :: w' →
  ∀ X, eps_closed X → p ∈ X →
  ∃ p', p' ∈ nextStates nfa X a ∧ nfa_path nfa p' w' q.
Proof.
  induction 1 as [q|q d w q' Hd _ IH|q b d w q' Hd Hp _];
    intros a w' Hw X HX Hin; [done| |].
  - apply (IH a w' Hw X HX). by eapply HX.
  - injection Hw as -> ->. exists d. split; [|done].
    apply elem_of_epsilonClosure, eps_reach_in, list_elem_of_bind. eauto.
Qed.

Lemma eps_reach_path S p :
  eps_reach (NFA.transitions nfa) S p →
  ∀ w q, nfa_path nfa p w q → ∃ d, d ∈ S ∧ nfa_path nfa d w q.
Proof.
  induction 1 as [x Hx|s d _ IH Hd]; intros w q Hp; [eauto|].
  apply IH. by eapply path_eps.
Qed.

(** The states the NFA can be in after a word, starting anywhere in an
    epsilon-closed set, are computed by [nextStates] symbol after symbol. *)
Lemma set_run_spec w : ∀ X q,
  eps_closed X →
  q ∈ foldl (nextStates nfa) X w ↔ ∃ p, p ∈ X ∧ nfa_path nfa p w q.
Proof.
  induction w as [|a w IH]; intros X q HX; simpl.
  - split; [intros Hq; exists q; split; [done|apply path_stop]|].
    intros (p & Hp & Hpath). by eapply path_nil_closed.
  - rewrite IH by apply eps_closed_closure. split.
    + intros (p' & Hp' & Hpath). apply elem_of_epsilonClosure in Hp'.
      destruct (eps_reach_path _ _ Hp' _ _ Hpath) as (d & Hd & Hpath').
      apply list_elem_of_bind in Hd as (p & Hd & Hp).
      exists p. split; [done|]. by eapply path_symbol.
    + intros (p & Hp & Hpath). by eapply path_first_symbol.
Qed.

Lemma start_run_spec w q :
  q ∈ foldl (nextStates nfa)
        (epsilonClosure [NFA.startState nfa] (NFA.transitions nfa)) w ↔
  nfa_path nfa (NFA.startState nfa) w q.
Proof.
  rewrite set_run_spec by apply eps_closed_closure. split.
  - intros (p & Hp & Hpath). apply elem_of_epsilonClosure in Hp.
    destruct (eps_reach_path _ _ Hp _ _ Hpath) as (d & Hd & Hpath').
    by apply list_elem_of_singleton in Hd as ->.
  - intros Hpath. exists (NFA.startState nfa). split; [|done].
    apply elem_of_epsilonClosure, eps_reach_in. left.
Qed.

Lemma nextStates_ext v X symbol :
  (∀ x, x ∈ v ↔ x ∈ X) →
  ∀ x, x ∈ nextStates nfa v symbol ↔ x ∈ nextStates nfa X symbol.
Proof.
  intros H x. unfold nextStates. rewrite !elem_of_epsilonClosure.
  split; apply eps_reach_mono; intros y (s & Hy & Hs)%list_elem_of_bind;
    apply list_elem_of_bind; exists s; (split; [done|by apply H]).
Qed.

Lemma foldl_nextStates_nil w : foldl (nextStates nfa) [] w = [].
Proof.
  induction w as [|a w IH]; simpl; [done|].
  unfold nextStates at 2. simpl. by rewrite epsilonClosure_nil.
Qed.

Lemma no_members_nil (l : list string) : (∀ x, x ∉ l) → l = [].
Proof. destruct l as [|x l]; [done|]. intros H. destruct (H x). left. Qed.

Variable st : LoopState.
Hypothesis Hends : ends nfa st.
Hypothesis Hcomma : ∀ x, x ∈ mentioned nfa → has_comma x = false.

(** From a state of the DFA whose recorded array has the members of [X],
    the DFA accepts a word over the alphabet exactly when the NFA, started
    in [X], can end in an accept state. *)
Lemma simulation w : ∀ k v X,
  (∀ a, a ∈ w → a ∈ NFA.alphabet nfa) →
  Map_get (dfaStates st) k = Some v → (∀ x, x ∈ v ↔ x ∈ X) →
  (∃ k', dfa_run (dfaTransitions st) k w = Some k' ∧
         k' ∈ dfaAcceptStates st) ↔
  ∃ s, s ∈ foldl (nextStates nfa) X w ∧ s ∈ NFA.acceptStates nfa.
Proof.
  destruct (converts_Inv nfa st _ (ends_converts nfa st Hends))
    as (HI & H2 & Hcomp & Hq & Hh).
  destruct (inv_queue _ _ _ HI) as (done & Hk & Hd).
  rewrite Hq, app_nil_r in Hk. subst done.
  induction w as [|a w IH]; intros k v X Hw Hv HX; simpl.
  - split.
    + intros (k' & [= <-] & Hacc). apply (inv_accept _ _ _ HI) in Hacc
        as (_ & v' & Hv' & s & Hs & Hsa).
      rewrite Hv in Hv'. injection Hv' as <-. exists s. split; [|done].
      by apply HX.
    + intros (s & Hs & Hsa). exists k. split; [done|].
      apply (inv_accept _ _ _ HI). split.
      * apply Hd, Map_get_is_Some. by rewrite Hv.
      * exists v. split; [done|]. exists s. split; [|done]. by apply HX.
  - assert (a ∈ NFA.alphabet nfa) as Ha by (apply Hw; left).
    assert (is_Some (dfaTransitions st !! k)) as [m Hm].
    { apply Hd, Map_get_is_Some. by rewrite Hv. }
    rewrite Hm. simpl.
    pose proof (nextStates_ext v X a HX) as Hnext.
    destruct (decide (nextStates nfa v a = [])) as [Hnil|Hne].
    + assert (nextStates nfa X a = []) as ->.
      { apply no_members_nil. intros x Hx%Hnext. rewrite Hnil in Hx.
        by apply elem_of_nil in Hx. }
      rewrite foldl_nextStates_nil.
      destruct (m !! a) as [k'|] eqn:Hma.
      * destruct (inv_trans _ _ _ HI _ _ _ _ Hm Hma)
          as (_ & _ & v' & Hv' & Hne & _).
        rewrite Hv in Hv'. injection Hv' as <-. done.
      * split; [by intros (? & ? & _)|]. by intros (? & ?%elem_of_nil & _).
    + rewrite (Hcomp k v m a Hm Hv Ha Hne).
      destruct (inv_trans _ _ _ HI _ _ _ _ Hm (Hcomp k v m a Hm Hv Ha Hne))
        as (_ & Hin & _).
      apply Map_get_is_Some in Hin as [v' Hv'].
      apply (IH _ v'); [intros b Hb; apply Hw; by right|done|].
      destruct (inv_entries _ _ _ HI _ _ (Map_get_Some_elem _ _ _ Hv'))
        as (Hkey & _ & Hne' & HU').
      assert (∀ x, x ∈ nextStates nfa v a → x ∈ mentioned nfa) as HUn.
      { apply (nextStates_within nfa _ (closed_under_mentioned nfa)); [done|].
        by apply (inv_entries _ _ _ HI k v), Map_get_Some_elem. }
      apply stateSetToString_inj in Hkey; try done; [|by auto..].
      intros x. rewrite <- Hnext, <- (elem_of_sort v'), <- Hkey.
      apply elem_of_sort.
Qed.
End language.

(** On tables of own entries: when neither the start state nor any destination contains a
    comma, the returned DFA accepts exactly the words over the alphabet
    that the NFA accepts. *)
Lemma table_same_language (nfa : NFA.t) :
  (∀ x, x ∈ mentioned nfa → has_comma x = false) →
  ∃ st dfa, converts nfa st dfa ∧
    ∀ w, (∀ a, a ∈ w → a ∈ NFA.alphabet nfa) →
         dfa_accepts dfa w ↔ nfa_accepts nfa w.
Proof.
  intros Hcomma. destruct (converts_exists nfa) as (st & dfa & Hc).
  exists st, dfa. split; [done|]. intros w Hw.
  pose proof (converts_ends _ _ _ Hc) as He.
  destruct (converts_Inv nfa st dfa Hc) as (HI & _).
  destruct Hc as [-> _]. unfold dfa_accepts, nfa_accepts. simpl.
  rewrite (simulation nfa st He Hcomma w (startKey nfa) _
             (epsilonClosure [NFA.startState nfa] (NFA.transitions nfa)) Hw
             (inv_start _ _ _ HI) (λ x, elem_of_sort _ x)).
  split; intros (q & Hq & Hacc); exists q; (split; [|done]);
    by apply start_run_spec.
Qed.

Lemma example_comma_free :
  ∀ x, x ∈ mentioned example_nfa → has_comma x = false.
Proof.
  apply Forall_forall.
  apply (bool_decide_unpack
           (Forall (λ x, has_comma x = false) (mentioned example_nfa))).
  vm_compute. exact I.
Qed.

Lemma table_same_language_example :
  ∃ st dfa, converts example_nfa st dfa ∧
    ∀ w, (∀ a, a ∈ w → a ∈ NFA.alphabet example_nfa) →
         dfa_accepts dfa w ↔ nfa_accepts example_nfa w.
Proof. exact (table_same_language example_nfa example_comma_free). Qed.

(** An NFA with a state named "a,b" beside the states "a" and "b". *)
Definition comma_nfa : NFA.t :=
  NFA.mk ["s"; "a"; "b"; "a,b"] ["x"; "y"]
    (<["s" := <["x" := ["a,b"]]> (<["y" := ["a"; "b"]]> ∅)]> ∅)
    "s" {["a"]}.

Example comma_nfa_converted :
  convertNFAtoDFA 2 comma_nfa =
  Ok (DFA.mk ["{s}"; "{a,b}"] ["x"; "y"]
        (<["{s}" := <["x" := "{a,b}"]> (<["y" := "{a,b}"]> ∅)]>
         (<["{a,b}" := ∅]> ∅))
        "{s}" []).
Proof. vm_compute. reflexivity. Qed.

Lemma comma_nfa_facts :
  well_formed comma_nfa ∧ nfa_accepts comma_nfa ["y"] ∧
  ∀ dfa, convertNFAtoDFA 2 comma_nfa = Ok dfa → ¬ dfa_accepts dfa ["y"].
Proof.
  split_and!.
  - split; [left|]. intros s symbol d Hs Hsym Hd. simpl in *.
    assert (s = "s" ∨ s = "a" ∨ s = "b" ∨ s = "a,b") as Hs' by set_solver.
    assert (symbol = "" ∨ symbol = "x" ∨ symbol = "y") as Hsym' by set_solver.
    clear Hs Hsym.
    destruct Hs' as [->|[->|[->| ->]]], Hsym' as [->|[->| ->]];
      vm_compute in Hd; set_solver.
  - exists "a". split; [|set_solver].
    apply (path_symbol comma_nfa "s" "y" "a"); [|apply path_stop].
    vm_compute. left.
  - intros dfa Hdfa. rewrite comma_nfa_converted in Hdfa.
    injection Hdfa as <-. intros (k & Hrun & Hk). simpl in Hk.
    by apply elem_of_nil in Hk.
Qed.

(** X11: the condition on commas cannot be dropped: it is not true of every
    well-formed NFA that the returned DFA accepts the words over the
    alphabet that the NFA accepts.  With states named "a", "b" and "a,b"
    the sets {"a,b"} and {"a","b"} have the same canonical key, and the DFA
    rejects a word the NFA accepts. *)
Theorem X11_comma_breaks_language :
  stateSetToString ["a,b"] = stateSetToString ["a"; "b"] ∧
  ¬ ∀ nfa fuel dfa w,
      well_formed nfa → convertNFAtoDFA fuel nfa = Ok dfa →
      (∀ a, a ∈ w → a ∈ NFA.alphabet nfa) →
      (dfa_accepts dfa w ↔ nfa_accepts nfa w).
Proof.
  split; [reflexivity|]. intros H.
  destruct comma_nfa_facts as (Hwf & Hacc & Hrej).
  apply (Hrej _ comma_nfa_converted).
  apply (H comma_nfa 2 _ ["y"] Hwf comma_nfa_converted); [|done].
  intros a ->%list_elem_of_singleton. set_solver.
Qed.

(** * The form handler: from the text fields to the NFA

    The submit handler reads five text fields, builds the NFA from them and
    converts it.  The part between reading the fields and the call of
    [convertNFAtoDFA] is modelled here, with the values of the fields as
    arguments; rendering is not. *)

(** [s.split(sep)] for a separator of one character, as the handler uses
    it. *)
Fixpoint split (sep : ascii) (s : string) : list string :=
  match s with
  | EmptyString => [EmptyString]
  | String c s' =>
      if Ascii.eqb c sep then EmptyString :: split sep s'
      else match split sep s' with
           | piece :: pieces => String c piece :: pieces
           | [] => [String c EmptyString]
           end
  end.

(** The white space and line terminators of JavaScript among the code
    units below 256: tab, line feed, vertical tab, form feed, carriage
    return, space and no-break space. *)
Definition js_space (c : ascii) : bool :=
  let n := nat_of_ascii c in
  (9 <=? n) && (n <=? 13) || (n =? 32) || (n =? 160).

Fixpoint trimStart (l : list ascii) : list ascii :=
  match l with
  | c :: l' => if js_space c then trimStart l' else l
  | [] => []
  end.

Definition trimEnd (l : list ascii) : list ascii :=
  reverse (trimStart (reverse l)).

(** [s.trim()] *)
Definition trim (s : string) : string :=
  string_of_list_ascii (trimEnd (trimStart (list_ascii_of_string s))).

(** The body of [transitionInput.forEach((tr) => ...)]: with fewer than
    three pieces [nextStates] is [undefined] and [nextStates.split] throws. *)
Definition add_transition (T : Transitions) (tr : string)
  : result Transitions :=
  match split "-" tr with
  | state :: symbol :: nextStates :: _ =>
      Ok (<[state := <[symbol := trim <$> split "," nextStates]>
                       (default ∅ (T !! state))]> T)
  | _ => TypeError
  end.

Fixpoint forEach_transition (T : Transitions) (trs : list string)
  : result Transitions :=
  match trs with
  | [] => Ok T
  | tr :: rest =>
      match add_transition T tr with
      | Ok T' => forEach_transition T' rest
      | TypeError => TypeError
      | OutOfFuel => OutOfFuel
      end
  end.

(** The values of the fields "states", "alphabet", "transitions",
    "start-state" and "accept-states". *)
Record Form := mkForm {
  states_value : string;
  alphabet_value : string;
  transitions_value : string;
  start_state_value : string;
  accept_states_value : string
}.

Definition parse_transitions (text : string) : result Transitions :=
  forEach_transition ∅ (split ";" text).

(** The NFA the handler passes to [convertNFAtoDFA]. *)
Definition parse_form (f : Form) : result NFA.t :=
  let states := trim <$> split "," (states_value f) in
  let alphabet := trim <$> split "," (alphabet_value f) in
  match parse_transitions (transitions_value f) with
  | Ok transitions =>
      Ok (NFA.mk states alphabet transitions (trim (start_state_value f))
            (list_to_set (trim <$> split "," (accept_states_value f))))
  | TypeError => TypeError
  | OutOfFuel => OutOfFuel
  end.

(** The handler up to the DFA. *)
Definition submit (fuel : nat) (f : Form) : result DFA.t :=
  match parse_form f with
  | Ok nfa => convertNFAtoDFA fuel nfa
  | TypeError => TypeError
  | OutOfFuel => OutOfFuel
  end.

Example split_commas : split "," "q0, q1,,q2" = ["q0"; " q1"; ""; "q2"].
Proof. reflexivity. Qed.

Example split_empty : split "," "" = [""].
Proof. reflexivity. Qed.

Example trim_both_ends : trim "  q 0 " = "q 0".
Proof. reflexivity. Qed.

Example parse_example_form :
  parse_form (mkForm "q0, q1, q2" "a,b" "q0-a-q0,q1;q0-b-q0;q1-a-q2" " q0 " "q2")
  = Ok example_nfa.
Proof. vm_compute. reflexivity. Qed.

Example submit_example_form :
  submit 3 (mkForm "q0,q1,q2" "a,b" "q0-a-q0,q1;q0-b-q0;q1-a-q2" "q0" "q2")
  = Ok example_dfa.
Proof. vm_compute. reflexivity. Qed.

Example parse_blank_transitions :
  parse_form (mkForm "q0" "a" "" "q0" "q0") = TypeError.
Proof. reflexivity. Qed.

(** ** Splitting *)

(** The number of occurrences of a character. *)
Fixpoint count_char (c : ascii) (s : string) : nat :=
  match s with
  | EmptyString => 0
  | String c' s' => (if Ascii.eqb c' c then 1 else 0) + count_char c s'
  end.

Lemma length_split c s : length (split c s) = S (count_char c s).
Proof.
  induction s as [|c' s IH]; simpl; [done|].
  destruct (Ascii.eqb c' c); simpl; [by rewrite IH|].
  destruct (split c s); simpl in *; lia.
Qed.

Lemma split_cons c s : ∃ piece pieces, split c s = piece :: pieces.
Proof.
  pose proof (length_split c s). destruct (split c s); [done|eauto].
Qed.

Lemma has_comma_count s : has_comma s = false ↔ count_char "," s = 0.
Proof.
  induction s as [|c s IH]; simpl; [done|].
  rewrite orb_false_iff, IH. destruct (Ascii.eqb c ","); simpl; split;
    (lia || naive_solver lia).
Qed.

Lemma split_no_comma s : has_comma s = false → split "," s = [s].
Proof.
  induction s as [|c s IH]; simpl; [done|].
  intros [-> Hs]%orb_false_iff. by rewrite (IH Hs).
Qed.

Lemma split_app_comma x t :
  has_comma x = false →
  split "," (x +:+ String ","%char t) = x :: split "," t.
Proof.
  induction x as [|c x IH]; simpl; [done|].
  intros [-> Hx]%orb_false_iff. by rewrite (IH Hx).
Qed.

Lemma join_split s : join "," (split "," s) = s.
Proof.
  induction s as [|c s IH]; [done|]. cbn [split].
  destruct (split_cons "," s) as (p & ps & Hs). rewrite Hs in *.
  destruct (Ascii.eqb_spec c ","%char) as [->|_].
  - rewrite join_cons_cons, IH. done.
  - destruct ps as [|q qs].
    + simpl in *. by rewrite IH.
    + rewrite join_cons_cons. rewrite join_cons_cons in IH.
      rewrite <- IH at 1. reflexivity.
Qed.

Lemma split_join l :
  l ≠ [] → (∀ x, x ∈ l → has_comma x = false) →
  split "," (join "," l) = l.
Proof.
  induction l as [|x l IH]; intros Hne Hc; [done|].
  assert (has_comma x = false) as Hx by (apply Hc; left).
  destruct l as [|y l]; [by apply split_no_comma|].
  rewrite join_cons_cons, split_app_comma by done. f_equal.
  apply IH; [done|]. intros z Hz. apply Hc. by right.
Qed.

Lemma split_snoc_sep c text :
  split c (text +:+ String c EmptyString) = split c text ++ [EmptyString].
Proof.
  induction text as [|c' text IH]; simpl.
  - by rewrite Ascii.eqb_refl.
  - rewrite IH. destruct (Ascii.eqb c' c); [done|].
    by destruct (split_cons c text) as (p & ps & ->).
Qed.

(** ** Trimming *)

Lemma trimStart_head l c r : trimStart l = c :: r → js_space c = false.
Proof.
  induction l as [|c' l IH]; simpl; [done|].
  destruct (js_space c') eqn:E; [done|]. by intros [= <- _].
Qed.

Lemma trimStart_fix l :
  (∀ c r, l = c :: r → js_space c = false) → trimStart l = l.
Proof.
  destruct l as [|c l]; simpl; [done|]. intros H. by rewrite (H c l).
Qed.

Lemma trimStart_suffix l : ∃ pre, l = pre ++ trimStart l.
Proof.
  induction l as [|c l [pre IH]]; simpl; [by exists []|].
  destruct (js_space c); [|by exists []].
  exists (c :: pre). simpl. by rewrite <- IH.
Qed.

Lemma trimEnd_prefix l : ∃ suf, l = trimEnd l ++ suf.
Proof.
  unfold trimEnd. destruct (trimStart_suffix (reverse l)) as [pre H].
  exists (reverse pre). rewrite <- reverse_app, <- H. by rewrite reverse_involutive.
Qed.

Lemma trimEnd_trimEnd l : trimEnd (trimEnd l) = trimEnd l.
Proof.
  unfold trimEnd. rewrite reverse_involutive. f_equal.
  apply trimStart_fix. intros c r. apply trimStart_head.
Qed.

Lemma trimStart_trimEnd_trimStart l :
  trimStart (trimEnd (trimStart l)) = trimEnd (trimStart l).
Proof.
  apply trimStart_fix. intros c r Hc.
  destruct (trimEnd_prefix (trimStart l)) as [suf Hsuf].
  rewrite Hc in Hsuf. simpl in Hsuf. by eapply trimStart_head.
Qed.

(** Trimming what is trimmed changes nothing. *)
Lemma trim_trim s : trim (trim s) = trim s.
Proof.
  unfold trim. rewrite list_ascii_of_string_of_list_ascii.
  by rewrite trimStart_trimEnd_trimStart, trimEnd_trimEnd.
Qed.

(** ** What the handler builds *)

Lemma add_transition_cases T tr :
  (count_char "-" tr < 2 ∧ add_transition T tr = TypeError) ∨
  (∃ state symbol nextStates extra,
     split "-" tr = state :: symbol :: nextStates :: extra ∧
     add_transition T tr =
       Ok (<[state := <[symbol := trim <$> split "," nextStates]>
                        (default ∅ (T !! state))]> T)).
Proof.
  unfold add_transition. pose proof (length_split "-" tr) as Hlen.
  destruct (split "-" tr) as [|state [|symbol [|nextStates extra]]];
    simpl in Hlen.
  - left. split; [lia|done].
  - left. split; [lia|done].
  - left. split; [lia|done].
  - right. by eexists _, _, _, _.
Qed.

Lemma forEach_transition_TypeError trs : ∀ T,
  (forEach_transition T trs = TypeError ↔
   ∃ tr, tr ∈ trs ∧ count_char "-" tr < 2) ∧
  forEach_transition T trs ≠ OutOfFuel.
Proof.
  induction trs as [|tr trs IH]; intros T; simpl.
  - split; [|done]. split; [done|]. by intros (? & ?%elem_of_nil & _).
  - destruct (add_transition_cases T tr)
      as [[Hc ->]|(state & symbol & ns & extra & Hs & ->)].
    + split; [|done]. split; [|done]. intros _. exists tr. split; [left|done].
    + destruct (IH (<[state := <[symbol := trim <$> split "," ns]>
                                 (default ∅ (T !! state))]> T)) as [IH1 IH2].
      split; [|done]. rewrite IH1. split.
      * intros (tr' & Hin & Hc). exists tr'. split; [by right|done].
      * intros (tr' & [Heq|Hin]%elem_of_cons & Hc); [subst tr'|eauto].
        pose proof (length_split "-" tr) as Hlen. rewrite Hs in Hlen.
        simpl in Hlen. lia.
Qed.

(** On tables of own entries: the handler throws a [TypeError] while building the transitions
    exactly when one of the pieces of the transitions text between
    semicolons has fewer than two hyphens; it does so in particular on an
    empty transitions text and on one that ends with a semicolon, so an NFA
    without transitions cannot be entered.  In every other case an NFA is
    built. *)
Lemma table_handler_throws (f : Form) :
  (parse_form f = TypeError ↔
   ∃ tr, tr ∈ split ";" (transitions_value f) ∧ count_char "-" tr < 2) ∧
  (parse_form f = TypeError ∨ ∃ nfa, parse_form f = Ok nfa) ∧
  (transitions_value f = "" → parse_form f = TypeError) ∧
  (∀ text, transitions_value f = text +:+ ";" → parse_form f = TypeError).
Proof.
  destruct (forEach_transition_TypeError (split ";" (transitions_value f)) ∅)
    as [H1 H2].
  assert (parse_form f = TypeError ↔
          ∃ tr, tr ∈ split ";" (transitions_value f) ∧ count_char "-" tr < 2)
    as Hiff.
  { rewrite <- H1. unfold parse_form, parse_transitions.
    by destruct (forEach_transition _ _). }
  split_and!; [done| | |].
  - unfold parse_form, parse_transitions in *.
    destruct (forEach_transition _ _); [right; eauto|by left|done].
  - intros Hf. apply Hiff. rewrite Hf. exists "". split; [left|simpl; lia].
  - intros text Hf. apply Hiff. rewrite Hf. exists "". split; [|simpl; lia].
    change ";"%string with (String ";"%char EmptyString).
    rewrite split_snoc_sep. apply elem_of_app. right. left.
Qed.

Lemma dests_add_transition T T' tr state symbol nextStates extra s a :
  add_transition T tr = Ok T' →
  split "-" tr = state :: symbol :: nextStates :: extra →
  dests T' s a =
    if decide (state = s ∧ symbol = a) then trim <$> split "," nextStates
    else dests T s a.
Proof.
  unfold add_transition. intros H Hs. rewrite Hs in H. injection H as <-.
  unfold dests. destruct (decide (state = s)) as [->|Hne].
  - rewrite lookup_insert_eq. simpl.
    destruct (decide (symbol = a)) as [->|Hne'].
    + rewrite lookup_insert_eq, decide_True by done. done.
    + rewrite lookup_insert_ne, decide_False by naive_solver.
      by destruct (T !! s).
  - rewrite lookup_insert_ne, decide_False by naive_solver. done.
Qed.

Lemma forEach_transition_unmatched trs s a : ∀ T T',
  forEach_transition T trs = Ok T' →
  (∀ tr, tr ∈ trs → take 2 (split "-" tr) ≠ [s; a]) →
  dests T' s a = dests T s a.
Proof.
  induction trs as [|tr trs IH]; intros T T' H Hno; simpl in H.
  - by injection H as <-.
  - destruct (add_transition_cases T tr)
      as [[_ Hadd]|(state & symbol & ns & extra & Hs & Hadd)];
      rewrite Hadd in H; [done|].
    rewrite (IH _ _ H) by (intros tr' Hin; apply Hno; by right).
    rewrite (dests_add_transition _ _ _ _ _ _ _ s a Hadd Hs).
    rewrite decide_False; [done|]. intros [-> ->].
    apply (Hno tr); [left|]. by rewrite Hs.
Qed.

Lemma forEach_transition_last before : ∀ T T' tr after s a ns extra,
  forEach_transition T (before ++ tr :: after) = Ok T' →
  split "-" tr = s :: a :: ns :: extra →
  (∀ tr', tr' ∈ after → take 2 (split "-" tr') ≠ [s; a]) →
  dests T' s a = trim <$> split "," ns.
Proof.
  induction before as [|b before IH]; intros T T' tr after s a ns extra H Hs Hno;
    simpl in H.
  - destruct (add_transition T tr) as [T1| |] eqn:Hadd; try done.
    rewrite (forEach_transition_unmatched _ _ _ _ _ H Hno).
    rewrite (dests_add_transition _ _ _ _ _ _ _ s a Hadd Hs).
    by rewrite decide_True.
  - destruct (add_transition T b) as [T1| |]; try done. by eapply IH.
Qed.

(** On tables of own entries: in the transitions the handler builds, the destinations of a state
    on a symbol are those of the last piece of the text that names this
    state and this symbol (its third part split at the commas, each
    destination trimmed; the state and the symbol are taken as written, not
    trimmed): a later piece replaces an earlier one, it does not add to it.
    A state and symbol that no piece names have no destinations. *)
Lemma table_last_piece_wins (text : string) (T : Transitions) :
  parse_transitions text = Ok T →
  (∀ before tr after s a ns extra,
     split ";" text = before ++ tr :: after →
     split "-" tr = s :: a :: ns :: extra →
     (∀ tr', tr' ∈ after → take 2 (split "-" tr') ≠ [s; a]) →
     dests T s a = trim <$> split "," ns) ∧
  (∀ s a,
     (∀ tr, tr ∈ split ";" text → take 2 (split "-" tr) ≠ [s; a]) →
     dests T s a = []).
Proof.
  unfold parse_transitions. intros H. split.
  - intros before tr after s a ns extra Htext Hs Hno. rewrite Htext in H.
    by eapply forEach_transition_last.
  - intros s a Hno. by rewrite (forEach_transition_unmatched _ _ _ _ _ H Hno).
Qed.

Lemma table_last_piece_wins_example :
  dests (<["q0" := <["a" := ["q2"]]> ∅]> ∅) "q0" "a" = ["q2"] ∧
  dests (<["q0" := <["a" := ["q2"]]> ∅]> ∅) " q0" "a" = [].
Proof.
  destruct (table_last_piece_wins "q0-a-q1;q0-a- q2 "
              (<["q0" := <["a" := ["q2"]]> ∅]> ∅) eq_refl) as [H1 H2].
  split.
  - apply (H1 ["q0-a-q1"] "q0-a- q2 " [] "q0" "a" " q2 " []); try done.
    by intros tr' ?%elem_of_nil.
  - apply H2. intros tr Htr. simpl in Htr.
    rewrite !elem_of_cons, elem_of_nil in Htr.
    destruct Htr as [->|[->|[]]]; done.
Qed.

(** The shape of every transitions object the handler builds. *)
Definition parsed_shape (T : Transitions) : Prop :=
  ∀ s m, T !! s = Some m →
    m ≠ ∅ ∧
    ∀ a ds, m !! a = Some ds → ds ≠ [] ∧ ∀ d, d ∈ ds → trim d = d.

Lemma trimmed_pieces text :
  trim <$> split "," text ≠ [] ∧
  ∀ d, d ∈ trim <$> split "," text → trim d = d.
Proof.
  split.
  - by destruct (split_cons "," text) as (p & ps & ->).
  - intros d (x & -> & _)%list_elem_of_fmap. apply trim_trim.
Qed.

Lemma forEach_transition_shape trs : ∀ T T',
  forEach_transition T trs = Ok T' → parsed_shape T → parsed_shape T'.
Proof.
  induction trs as [|tr trs IH]; intros T T' H HT; simpl in H.
  - by injection H as <-.
  - destruct (add_transition_cases T tr)
      as [[_ Hadd]|(state & symbol & ns & extra & Hs & Hadd)];
      rewrite Hadd in H; [done|].
    apply (IH _ _ H). intros s m Hm.
    destruct (decide (state = s)) as [->|Hne].
    + rewrite lookup_insert_eq in Hm. injection Hm as <-. split.
      * apply insert_non_empty.
      * intros a ds Ha. destruct (decide (symbol = a)) as [->|Hne'].
        -- rewrite lookup_insert_eq in Ha. injection Ha as <-.
           apply trimmed_pieces.
        -- rewrite lookup_insert_ne in Ha by done.
           destruct (T !! s) as [m0|] eqn:Hm0; simpl in Ha; [|done].
           by apply (proj2 (HT s m0 Hm0) a ds).
    + rewrite lookup_insert_ne in Hm by done. by apply (HT s m).
Qed.



(** X15: reading a comma-separated list undoes writing it: for every text,
    joining its pieces at the commas gives the text back; and a non-empty
    list of trimmed names without commas, joined by commas, is read back
    by the handler (split at the commas, each piece trimmed) as the same
    list. *)
Theorem X15_comma_list_round_trip :
  (∀ text, join "," (split "," text) = text) ∧
  (∀ l, l ≠ [] → (∀ x, x ∈ l → has_comma x = false ∧ trim x = x) →
        trim <$> split "," (join "," l) = l).
Proof.
  split; [apply join_split|]. intros l Hne Hl.
  rewrite split_join; [|done|by intros x [? _]%Hl].
  clear Hne. induction l as [|x l IH]; [done|]. simpl. f_equal.
  - apply Hl. left.
  - apply IH. intros y Hy. apply Hl. by right.
Qed.

(** ** The handler and the conversion together *)

(** On tables of own entries: up to the DFA the handler can fail in one way only: either the
    transitions text makes it throw, whatever the number of iterations
    allowed, or an NFA is built and the conversion returns a DFA as soon as
    it is allowed one iteration for each state of that DFA. *)
Lemma table_handler_outcome (f : Form) :
  (parse_form f = TypeError ∧ ∀ fuel, submit fuel f = TypeError) ∨
  (∃ nfa dfa, parse_form f = Ok nfa ∧
     ∀ fuel, submit fuel f =
       if decide (length (DFA.states dfa) ≤ fuel) then Ok dfa else OutOfFuel).
Proof.
  unfold submit. destruct (parse_form f) as [nfa| |] eqn:Hp.
  - right. destruct (converts_exists nfa) as (st & dfa & _ & H).
    exists nfa, dfa. split; [done|]. intros fuel. apply H.
  - by left.
  - exfalso. unfold parse_form, parse_transitions in Hp.
    destruct (forEach_transition_TypeError (split ";" (transitions_value f)) ∅)
      as [_ Hno].
    by destruct (forEach_transition _ _).
Qed.

Lemma has_comma_list s :
  has_comma s = false ↔ ","%char ∉ list_ascii_of_string s.
Proof.
  induction s as [|c s IH]; simpl.
  - split; [intros _ []%elem_of_nil|done].
  - rewrite orb_false_iff, IH, not_elem_of_cons.
    destruct (Ascii.eqb_spec c ","%char); naive_solver.
Qed.

Lemma trim_no_comma s : has_comma s = false → has_comma (trim s) = false.
Proof.
  rewrite !has_comma_list. unfold trim.
  rewrite list_ascii_of_string_of_list_ascii. intros H Hin. apply H.
  destruct (trimEnd_prefix (trimStart (list_ascii_of_string s))) as [suf Hs].
  destruct (trimStart_suffix (list_ascii_of_string s)) as [pre Hp].
  rewrite Hp, Hs. apply elem_of_app. right. apply elem_of_app. by left.
Qed.

Lemma split_pieces_no_comma s p : p ∈ split "," s → has_comma p = false.
Proof.
  revert p. induction s as [|c s IH]; intros p; simpl.
  - by intros ->%list_elem_of_singleton.
  - destruct (Ascii.eqb c ","%char) eqn:E.
    + intros [->|Hp]%elem_of_cons; [done|auto].
    + destruct (split_cons "," s) as (q & qs & Hs). rewrite Hs in *.
      intros [->|Hp]%elem_of_cons.
      * simpl. rewrite E. apply IH. left.
      * apply IH. by right.
Qed.

Lemma forEach_transition_no_comma trs : ∀ T T',
  forEach_transition T trs = Ok T' →
  (∀ s m a ds d, T !! s = Some m → m !! a = Some ds → d ∈ ds →
                 has_comma d = false) →
  ∀ s m a ds d, T' !! s = Some m → m !! a = Some ds → d ∈ ds →
                has_comma d = false.
Proof.
  induction trs as [|tr trs IH]; intros T T' H HT; simpl in H.
  - by injection H as <-.
  - destruct (add_transition_cases T tr)
      as [[_ Hadd]|(state & symbol & ns & extra & Hs & Hadd)];
      rewrite Hadd in H; [done|].
    apply (IH _ _ H). intros s m a ds d Hm Ha Hd.
    destruct (decide (state = s)) as [->|Hne].
    + rewrite lookup_insert_eq in Hm. injection Hm as <-.
      destruct (decide (symbol = a)) as [->|Hne'].
      * rewrite lookup_insert_eq in Ha. injection Ha as <-.
        apply list_elem_of_fmap in Hd as (p & -> & Hp).
        by apply trim_no_comma, (split_pieces_no_comma ns).
      * rewrite lookup_insert_ne in Ha by done.
        destruct (T !! s) as [m0|] eqn:Hm0; simpl in Ha; [|done].
        by apply (HT s m0 a ds d).
    + rewrite lookup_insert_ne in Hm by done. by apply (HT s m a ds d).
Qed.

Lemma elem_of_all_targets (T : Transitions) d :
  d ∈ all_targets T →
  ∃ s m a ds, T !! s = Some m ∧ m !! a = Some ds ∧ d ∈ ds.
Proof.
  unfold all_targets. intros ([s m] & Hd & Hs)%list_elem_of_bind.
  apply list_elem_of_bind in Hd as ([a ds] & Hd & Ha).
  apply elem_of_map_to_list in Hs, Ha. by exists s, m, a, ds.
Qed.

(** On tables of own entries: for an NFA entered through the form with a start state without a
    comma, the DFA the handler obtains accepts exactly the words over the
    alphabet that the NFA accepts: the destinations in the text are split
    at the commas, so no state the conversion meets contains one. *)
Lemma table_handler_same_language (f : Form) (nfa : NFA.t) :
  parse_form f = Ok nfa → has_comma (start_state_value f) = false →
  ∃ dfa,
    (∀ fuel, submit fuel f =
       if decide (length (DFA.states dfa) ≤ fuel) then Ok dfa else OutOfFuel) ∧
    ∀ w, (∀ a, a ∈ w → a ∈ NFA.alphabet nfa) →
         dfa_accepts dfa w ↔ nfa_accepts nfa w.
Proof.
  intros Hp Hstart.
  assert (∀ x, x ∈ mentioned nfa → has_comma x = false) as Hcomma.
  { unfold parse_form, parse_transitions in Hp.
    destruct (forEach_transition _ _) as [T| |] eqn:HT; try done.
    injection Hp as <-. unfold mentioned. simpl.
    intros x [->|Hx]%elem_of_cons; [by apply trim_no_comma|].
    apply elem_of_all_targets in Hx as (s & m & a & ds & Hs & Ha & Hd).
    by apply (forEach_transition_no_comma _ _ _ HT) with s m a ds. }
  destruct (converts_exists nfa) as (st & dfa & Hc). exists dfa. split.
  - intros fuel. unfold submit. rewrite Hp. apply Hc.
  - intros w Hw.
    pose proof (converts_ends _ _ _ Hc) as He.
    destruct (converts_Inv nfa st dfa Hc) as (HI & _).
    destruct Hc as [-> _]. unfold dfa_accepts, nfa_accepts. simpl.
    rewrite (simulation nfa st He Hcomma w (startKey nfa) _
               (epsilonClosure [NFA.startState nfa] (NFA.transitions nfa)) Hw
               (inv_start _ _ _ HI) (λ x, elem_of_sort _ x)).
    split; intros (q & Hq & Hacc); exists q; (split; [|done]);
      by apply start_run_spec.
Qed.

Lemma table_handler_same_language_example :
  ∃ dfa,
    (∀ fuel,
       submit fuel
         (mkForm "q0, q1, q2" "a,b" "q0-a-q0,q1;q0-b-q0;q1-a-q2" "q0" "q2") =
       if decide (length (DFA.states dfa) ≤ fuel) then Ok dfa else OutOfFuel) ∧
    ∀ w, (∀ a, a ∈ w → a ∈ NFA.alphabet example_nfa) →
         dfa_accepts dfa w ↔ nfa_accepts example_nfa w.
Proof.
  exact (table_handler_same_language
           (mkForm "q0, q1, q2" "a,b" "q0-a-q0,q1;q0-b-q0;q1-a-q2" "q0" "q2")
           example_nfa parse_example_form eq_refl).
Qed.

(** ** The order of the states list *)

(** Every key after the first has a transition into it from a key recorded
    before it. *)
Definition discovery_order (st : LoopState) : Prop :=
  ∀ i k, Map_keys (dfaStates st) !! S i = Some k →
    ∃ j k0, j ≤ i ∧ Map_keys (dfaStates st) !! j = Some k0 ∧
            edge (dfaTransitions st) k0 k.

Section order.
Variable nfa : NFA.t.
Let U := mentioned nfa.
Let HU := closed_under_mentioned nfa.

Lemma order_init : discovery_order (init nfa).
Proof. intros i k H. unfold init in H. simpl in H. done. Qed.

Lemma order_enter st cur rest v :
  Inv nfa U st → discovery_order st → dfaQueue st = cur :: rest →
  discovery_order (enter nfa cur rest v st).
Proof.
  intros HI Ho Hq i k Hk. simpl in *.
  destruct (Inv_front_fresh nfa U st cur rest HI Hq) as [Hnone _].
  destruct (Ho i k Hk) as (j & k0 & Hj & Hk0 & He).
  exists j, k0. split_and!; [done..|]. by apply edge_insert_empty.
Qed.

Lemma order_on_symbol st cur v symbol :
  Inv nfa U st → discovery_order st →
  is_Some (dfaTransitions st !! cur) →
  Map_get (dfaStates st) cur = Some v →
  discovery_order (on_symbol nfa cur v st symbol).
Proof.
  intros HI Ho Hcur Hget.
  destruct (on_symbol_cases nfa cur v st symbol)
    as [[_ ->]|(Hne & Hδ & _ & Hcase)]; [done|].
  assert (∀ a b, edge (dfaTransitions st) a b →
                 edge (dfaTransitions (on_symbol nfa cur v st symbol)) a b)
    as Hmono.
  { intros a b. rewrite Hδ. apply edge_record_mono. intros m k1 Hm Hk1.
    destruct (inv_trans _ _ _ HI _ _ _ _ Hm Hk1) as (_ & _ & w & Hw & _ & ->).
    rewrite Hget in Hw. by injection Hw as <-. }
  intros i k Hk.
  destruct Hcase as [(_ & Hs & _)|(Hnew & Hs & _)]; rewrite Hs in *.
  - destruct (Ho i k Hk) as (j & k0 & Hj & Hk0 & He). eauto 6.
  - unfold Map_keys in *. rewrite fmap_app in *. simpl in *.
    destruct (decide (S i < length (dfaStates st).*1)) as [Hlt|Hge].
    + rewrite lookup_app_l in Hk by done.
      destruct (Ho i k Hk) as (j & k0 & Hj & Hk0 & He).
      exists j, k0. split_and!; [done| |auto].
      by apply lookup_app_l_Some.
    + assert (cur ∈ (dfaStates st).*1) as Hin
        by (apply Map_get_is_Some; by rewrite Hget).
      apply list_elem_of_lookup in Hin as [j Hj].
      pose proof (lookup_lt_Some _ _ _ Hj) as Hjlt.
      rewrite lookup_app_r in Hk by lia.
      apply list_lookup_singleton_Some in Hk as [_ <-].
      exists j, cur. split_and!; [lia|by apply lookup_app_l_Some|].
      rewrite Hδ. by apply edge_record_new.
Qed.

Lemma order_symbols symbols : ∀ st cur v,
  Inv nfa U st → discovery_order st →
  is_Some (dfaTransitions st !! cur) →
  Map_get (dfaStates st) cur = Some v →
  (∀ symbol, symbol ∈ symbols → symbol ∈ NFA.alphabet nfa) →
  discovery_order (foldl (on_symbol nfa cur v) st symbols).
Proof.
  induction symbols as [|symbol symbols IH]; intros st cur v HI Ho Hcur Hget Hsub;
    simpl; [done|].
  destruct (Inv_on_symbol nfa U HU st cur v symbol) as (I1 & I2 & I3 & _);
    [done|done|done|apply Hsub; left|].
  apply IH; try done; [by apply order_on_symbol|].
  intros s Hs. apply Hsub. by right.
Qed.

Lemma at_head_order st : at_head nfa st → discovery_order st.
Proof.
  induction 1 as [|st cur rest v Hh IH Hq Hget]; [apply order_init|].
  pose proof (at_head_Inv nfa U HU st Hh) as HI.
  destruct (enter_facts nfa U st cur rest v Hq) as (F1 & F2 & _).
  apply order_symbols;
    [by apply Inv_enter|by apply order_enter|done|by rewrite F2|done].
Qed.
End order.

(** On tables of own entries: the states of the returned DFA are listed in the order of their
    discovery: every state after the first has a transition into it from a
    state that stands before it in the list. *)
Lemma table_states_in_discovery_order (nfa : NFA.t) :
  ∃ st dfa, converts nfa st dfa ∧
    ∀ i key, DFA.states dfa !! S i = Some key →
      ∃ j key0, j ≤ i ∧ DFA.states dfa !! j = Some key0 ∧
                edge (DFA.transitions dfa) key0 key.
Proof.
  destruct (converts_exists nfa) as (st & dfa & Hc). exists st, dfa.
  split; [done|].
  destruct (ends_at_head nfa st (converts_ends _ _ _ Hc)) as [Hh _].
  destruct Hc as [-> _]. simpl. by apply (at_head_order nfa st).
Qed.

(** ** NFAs that are not well formed *)

Lemma closed_under_distinct nfa :
  closed_under nfa (remove_dups (mentioned nfa)).
Proof.
  destruct (closed_under_mentioned nfa) as [H1 H2]. split.
  - by apply elem_of_remove_dups.
  - intros s symbol d Hs Hsym Hd. rewrite elem_of_remove_dups in Hs.
    rewrite elem_of_remove_dups. by apply (H2 s symbol d).
Qed.

(** On tables of own entries: the conversion also ends on an NFA whose start state or
    destinations are not declared: with [n] the number of distinct states
    among the start state and the destinations of all moves, the returned
    DFA has at most [2 ^ n - 1] states, and every recorded array consists of
    such states. *)
Lemma table_size_without_declarations (nfa : NFA.t) :
  ∃ st dfa, converts nfa st dfa ∧
    length (DFA.states dfa) ≤ 2 ^ length (remove_dups (mentioned nfa)) - 1 ∧
    ∀ key v x, Map_get (dfaStates st) key = Some v → x ∈ v →
      x = NFA.startState nfa ∨ x ∈ all_targets (NFA.transitions nfa).
Proof.
  destruct (converts_exists nfa) as (st & dfa & Hc). exists st, dfa.
  split; [done|].
  destruct (ends_at_head nfa st (converts_ends _ _ _ Hc)) as [Hh _].
  pose proof (at_head_Inv nfa _ (closed_under_distinct nfa) st Hh) as HI.
  destruct Hc as [-> _]. simpl. split.
  - etrans; [by apply (Inv_keys_bound nfa (remove_dups (mentioned nfa)))|].
    apply length_candidates.
  - intros key v x Hv%Map_get_Some_elem Hx.
    destruct (inv_entries _ _ _ HI key v Hv) as (_ & _ & _ & HU).
    apply HU in Hx. rewrite elem_of_remove_dups in Hx.
    by apply elem_of_cons in Hx.
Qed.

(** * The prototype chain

    So far an object was a table of its own entries.  In the code the
    tables are plain objects, and [obj[key]] also finds what the object
    inherits from [Object.prototype]; an assignment to ["__proto__"] runs an
    inherited setter.  This part models the reads and writes of
    [convertNFAtoDFA] and of the form handler with the inherited
    properties, shows where the code leaves the tables, and that the two
    agree when no name is an inherited one. *)

(** The names of the properties of [Object.prototype]. *)
Definition inherited_names : list string :=
  ["constructor"; "__defineGetter__"; "__defineSetter__"; "hasOwnProperty";
   "__lookupGetter__"; "__lookupSetter__"; "isPrototypeOf";
   "propertyIsEnumerable"; "toString"; "valueOf"; "__proto__";
   "toLocaleString"].

(** What [transitions[state]?.[symbol]] evaluates to: the array of an own
    entry; [undefined]; the name of an inherited function, a string; or
    another inherited value (a function, an object, a number) or a throwing
    accessor, with which the run leaves this model. *)
Inductive property : Type :=
| Own_array (ds : list string)
| Not_defined
| Function_name (name : string)
| Outside.

(** The ["name"] of the function [Object.prototype[state]]; the value of
    ["__proto__"] is [Object.prototype] itself, which has none. *)
Definition function_name (state : string) : option string :=
  if String.eqb state "__proto__" then None
  else if String.eqb state "constructor" then Some "Object"
  else Some state.

(** [transitions[state]?.[symbol]].  An own inner object has its own
    arrays and inherits the rest; a [state] without an own entry finds an
    inherited function or nothing.  Of the properties of the inherited
    functions only ["name"] is modelled; none of them has a property [""].
    Every other symbol read on an inherited value is left outside the
    model, also where the code would find nothing. *)
Definition get_transitions (T : Transitions) (state symbol : string)
  : property :=
  match T !! state with
  | Some m =>
      match m !! symbol with
      | Some ds => Own_array ds
      | None =>
          if bool_decide (symbol ∈ inherited_names) then Outside
          else Not_defined
      end
  | None =>
      if bool_decide (state ∈ inherited_names) then
        if String.eqb symbol "" then Not_defined
        else if String.eqb symbol "name" then
          match function_name state with
          | Some name => Function_name name
          | None => Not_defined
          end
        else Outside
      else Not_defined
  end.

(** [... || []] as [flatMap] takes it: an array gives its members, a
    non-empty string is appended as it is. *)
Definition contribution (p : property) : option (list string) :=
  match p with
  | Own_array ds => Some ds
  | Not_defined => Some []
  | Function_name name =>
      Some (if String.eqb name "" then [] else [name])
  | Outside => None
  end.

(** [currentNfaStates.flatMap((state) => nfa.transitions[state]?.[symbol] || [])];
    [None] when a read is outside the model. *)
Fixpoint flatMap_js (T : Transitions) (symbol : string)
  (states : list string) : option (list string) :=
  match states with
  | [] => Some []
  | state :: rest =>
      match contribution (get_transitions T state symbol),
            flatMap_js T symbol rest with
      | Some ds, Some more => Some (ds ++ more)
      | _, _ => None
      end
  end.

Definition nextStates_js (nfa : NFA.t) (currentNfaStates : list string)
  (symbol : string) : option (list string) :=
  match flatMap_js (NFA.transitions nfa) symbol currentNfaStates with
  | Some union => Some (epsilonClosure union (NFA.transitions nfa))
  | None => None
  end.

(** The body of the [for], with the assignment
    [dfaTransitions[currentDfaState][symbol] = nextDfaState] as the code
    performs it: for the symbol ["__proto__"] it runs the inherited setter,
    which ignores a string, and no entry is written. *)
Definition on_symbol_js (nfa : NFA.t) (currentDfaState : string)
  (currentNfaStates : list string) (st : LoopState) (symbol : string)
  : option LoopState :=
  match nextStates_js nfa currentNfaStates symbol with
  | None => None
  | Some nextNfaStates =>
      Some
        (if bool_decide (0 < length nextNfaStates) then
           let nextDfaState := stateSetToString nextNfaStates in
           let st' :=
             if negb (Map_has (dfaStates st) nextDfaState) then
               mkLoop (Map_set (dfaStates st) nextDfaState
                         (sort nextNfaStates))
                      (dfaTransitions st) (dfaAcceptStates st)
                      (dfaQueue st ++ [nextDfaState])
             else st in
           mkLoop (dfaStates st')
                  (if String.eqb symbol "__proto__" then dfaTransitions st'
                   else alter (λ m, <[symbol := nextDfaState]> m)
                          currentDfaState (dfaTransitions st'))
                  (dfaAcceptStates st') (dfaQueue st')
         else st)
  end.

Fixpoint for_symbols_js (nfa : NFA.t) (currentDfaState : string)
  (currentNfaStates : list string) (st : LoopState) (symbols : list string)
  : option LoopState :=
  match symbols with
  | [] => Some st
  | symbol :: rest =>
      match on_symbol_js nfa currentDfaState currentNfaStates st symbol with
      | Some st' => for_symbols_js nfa currentDfaState currentNfaStates st' rest
      | None => None
      end
  end.

(** The loop of [convertNFAtoDFA]; [None] when the run leaves the model. *)
Fixpoint while_loop_js (fuel : nat) (nfa : NFA.t) (st : LoopState)
  : option (result LoopState) :=
  match dfaQueue st with
  | [] => Some (Ok st)
  | currentDfaState :: rest =>
      match fuel with
      | O => Some OutOfFuel
      | S fuel' =>
          match Map_get (dfaStates st) currentDfaState with
          | None => Some TypeError
          | Some currentNfaStates =>
              match for_symbols_js nfa currentDfaState currentNfaStates
                      (enter nfa currentDfaState rest currentNfaStates st)
                      (NFA.alphabet nfa) with
              | Some st' => while_loop_js fuel' nfa st'
              | None => None
              end
          end
      end
  end.

Definition run_js (fuel : nat) (nfa : NFA.t) : option (result LoopState) :=
  while_loop_js fuel nfa (init nfa).

Definition convertNFAtoDFA_js (fuel : nat) (nfa : NFA.t)
  : option (result DFA.t) :=
  match run_js fuel nfa with
  | Some (Ok st) => Some (Ok (to_DFA nfa st))
  | Some TypeError => Some TypeError
  | Some OutOfFuel => Some OutOfFuel
  | None => None
  end.

(** No state the conversion can meet and no symbol of the alphabet is the
    name of an inherited property. *)
Definition no_inherited_names (nfa : NFA.t) : Prop :=
  (∀ s, s ∈ mentioned nfa → s ∉ inherited_names) ∧
  (∀ a, a ∈ NFA.alphabet nfa → a ∉ inherited_names).

(** ** Three inputs on which the code leaves the tables *)

(** q0 moves to q1 on the symbol "__proto__" (an own entry of the inner
    object, as [JSON.parse] or a computed key gives it). *)
Definition proto_nfa : NFA.t :=
  NFA.mk ["q0"; "q1"] ["__proto__"]
    (<["q0" := <["__proto__" := ["q1"]]> ∅]> ∅) "q0" {["q1"]}.

(** One state named "constructor", one symbol "name", no transitions. *)
Definition constructor_nfa : NFA.t :=
  NFA.mk ["constructor"] ["name"] ∅ "constructor" ∅.

Example proto_nfa_converted :
  convertNFAtoDFA_js 2 proto_nfa =
  Some (Ok (DFA.mk ["{q0}"; "{q1}"] ["__proto__"]
              (<["{q0}" := ∅]> (<["{q1}" := ∅]> ∅)) "{q0}" ["{q1}"])).
Proof. vm_compute. reflexivity. Qed.

Example constructor_nfa_converted :
  convertNFAtoDFA_js 2 constructor_nfa =
  Some (Ok (DFA.mk ["{constructor}"; "{Object}"] ["name"]
              (<["{constructor}" := <["name" := "{Object}"]> ∅]>
               (<["{Object}" := ∅]> ∅)) "{constructor}" [])).
Proof. vm_compute. reflexivity. Qed.

Example caller_is_outside :
  convertNFAtoDFA_js 2 (NFA.mk ["constructor"] ["caller"] ∅ "constructor" ∅)
  = None.
Proof. vm_compute. reflexivity. Qed.

Example example_nfa_js : convertNFAtoDFA_js 3 example_nfa = Some (Ok example_dfa).
Proof. vm_compute. reflexivity. Qed.

(** ** Where the tables and the code agree *)

(** The reads of [epsilonClosure], on the key [""], never find an inherited
    property: the closure is the same on the tables and in the code. *)
Lemma get_transitions_epsilon T state :
  contribution (get_transitions T state "") = Some (dests T state "").
Proof.
  unfold get_transitions, dests. destruct (T !! state) as [m|]; simpl.
  - by destruct (m !! "").
  - by case_bool_decide.
Qed.

Lemma get_transitions_plain T state symbol :
  state ∉ inherited_names → symbol ∉ inherited_names →
  contribution (get_transitions T state symbol) = Some (dests T state symbol).
Proof.
  intros Hs Ha. unfold get_transitions, dests.
  destruct (T !! state) as [m|]; simpl.
  - destruct (m !! symbol); simpl; [done|]. by rewrite bool_decide_eq_false_2.
  - by rewrite bool_decide_eq_false_2.
Qed.

Lemma flatMap_js_plain T symbol states :
  (∀ s, s ∈ states → s ∉ inherited_names) → symbol ∉ inherited_names →
  flatMap_js T symbol states = Some (states ≫= λ state, dests T state symbol).
Proof.
  intros Hs Ha. induction states as [|s states IH]; simpl; [done|].
  rewrite get_transitions_plain by (try done; apply Hs; left).
  rewrite IH by (intros s' Hs'; apply Hs; by right). done.
Qed.

Lemma proto_inherited : "__proto__" ∈ inherited_names.
Proof. unfold inherited_names. set_solver. Qed.

Lemma on_symbol_js_plain nfa cur v st symbol :
  (∀ s, s ∈ v → s ∉ inherited_names) → symbol ∉ inherited_names →
  nextStates_js nfa v symbol = Some (nextStates nfa v symbol) ∧
  on_symbol_js nfa cur v st symbol = Some (on_symbol nfa cur v st symbol).
Proof.
  intros Hv Ha.
  assert (nextStates_js nfa v symbol = Some (nextStates nfa v symbol)) as Hn.
  { unfold nextStates_js. by rewrite flatMap_js_plain. }
  split; [done|]. unfold on_symbol_js, on_symbol. rewrite Hn.
  destruct (String.eqb_spec symbol "__proto__") as [->|_]; [|done].
  destruct (Ha proto_inherited).
Qed.

Lemma for_symbols_js_plain nfa cur v symbols : ∀ st,
  (∀ s, s ∈ v → s ∉ inherited_names) →
  (∀ a, a ∈ symbols → a ∉ inherited_names) →
  for_symbols_js nfa cur v st symbols =
  Some (foldl (on_symbol nfa cur v) st symbols).
Proof.
  induction symbols as [|symbol symbols IH]; intros st Hv Ha; simpl; [done|].
  rewrite (proj2 (on_symbol_js_plain nfa cur v st symbol Hv
                    (Ha symbol ltac:(left)))).
  apply IH; [done|]. intros a Hin. apply Ha. by right.
Qed.

Lemma while_loop_js_plain nfa fuel : ∀ st,
  no_inherited_names nfa → at_head nfa st →
  while_loop_js fuel nfa st = Some (while_loop fuel nfa st).
Proof.
  induction fuel as [|fuel IH]; intros st [Hs Ha] Hh; simpl;
    destruct (dfaQueue st) as [|cur rest] eqn:Hq; try done.
  destruct (Map_get (dfaStates st) cur) as [v|] eqn:Hv; [|done].
  pose proof (at_head_Inv nfa _ (closed_under_mentioned nfa) st Hh) as HI.
  rewrite for_symbols_js_plain; [| |done].
  - apply IH; [done|]. by eapply at_head_next.
  - intros s Hin. apply Hs.
    destruct (inv_entries _ _ _ HI cur v (Map_get_Some_elem _ _ _ Hv))
      as (_ & _ & _ & HU).
    by apply HU.
Qed.

(** When no name is an inherited one, the code does what the tables say. *)
Lemma convertNFAtoDFA_js_plain nfa fuel :
  no_inherited_names nfa →
  run_js fuel nfa = Some (run fuel nfa) ∧
  convertNFAtoDFA_js fuel nfa = Some (convertNFAtoDFA fuel nfa).
Proof.
  intros H.
  assert (run_js fuel nfa = Some (run fuel nfa)) as Hr
    by (apply while_loop_js_plain; [done|apply at_head_init]).
  split; [done|]. unfold convertNFAtoDFA_js, convertNFAtoDFA. rewrite Hr.
  by destruct (run fuel nfa).
Qed.

Lemma example_no_inherited : no_inherited_names example_nfa.
Proof.
  split; apply Forall_forall.
  - apply (bool_decide_unpack
             (Forall (λ s, s ∉ inherited_names) (mentioned example_nfa))).
    vm_compute. exact I.
  - apply (bool_decide_unpack
             (Forall (λ a, a ∉ inherited_names) (NFA.alphabet example_nfa))).
    vm_compute. exact I.
Qed.

(** ** The claims the code breaks *)

(** C6: the code breaks the claim.  On the NFA in which q0 moves to q1 on
    the symbol "__proto__", the conversion returns the states "{q0}" and
    "{q1}" with empty transitions: the assignment that should record the
    transition from "{q0}" to "{q1}" runs the inherited setter and writes
    nothing, so "{q1}" is in the states list and is not reachable from the
    start state, although q1 is a destination of q0 in the NFA. *)
Theorem C6_proto_symbol_orphan :
  "q1" ∈ dests (NFA.transitions proto_nfa) "q0" "__proto__" ∧
  ∃ dfa, convertNFAtoDFA_js 2 proto_nfa = Some (Ok dfa) ∧
    DFA.states dfa = ["{q0}"; "{q1}"] ∧ DFA.startState dfa = "{q0}" ∧
    DFA.transitions dfa = <["{q0}" := ∅]> (<["{q1}" := ∅]> ∅) ∧
    ¬ reachable (DFA.transitions dfa) (DFA.startState dfa) "{q1}".
Proof.
  split; [vm_compute; left|].
  eexists. split; [apply proto_nfa_converted|]. simpl.
  split_and!; [done..|].
  intros H. apply rtc_inv in H as [[=]|(k & (m & symbol & Hm & Hs) & _)].
  rewrite lookup_insert_eq in Hm. injection Hm as <-.
  by rewrite lookup_empty in Hs.
Qed.

(** C7: the code breaks the claim.  The NFA with the one state
    "constructor", the symbol "name" and no transitions has no destination
    for that state and symbol, so the closed union is empty; the code reads
    the inherited [Object.prototype.constructor], whose "name" is the string
    "Object", takes it for a destination, and the returned transitions have
    the entry "name" for the state "{constructor}", leading to a state
    "{Object}". *)
Theorem C7_inherited_read_entry :
  epsilonClosure
    (["constructor"] ≫=
       λ state, dests (NFA.transitions constructor_nfa) state "name")
    (NFA.transitions constructor_nfa) = [] ∧
  get_transitions (NFA.transitions constructor_nfa) "constructor" "name" =
    Function_name "Object" ∧
  ∃ dfa, convertNFAtoDFA_js 2 constructor_nfa = Some (Ok dfa) ∧
    DFA.states dfa = ["{constructor}"; "{Object}"] ∧
    ∃ m, DFA.transitions dfa !! "{constructor}" = Some m ∧
         m !! "name" = Some "{Object}".
Proof.
  split_and!; [reflexivity|reflexivity|].
  eexists. split; [apply constructor_nfa_converted|]. simpl.
  split; [done|]. eexists. split; [apply lookup_insert_eq|].
  apply lookup_insert_eq.
Qed.

(** C8: the code breaks the claim.  The NFA with the one state
    "constructor", the symbol "name" and no transitions is well formed,
    and the bound for its one declared state is [2 ^ 1 - 1 = 1] key; the
    code creates the two keys "{constructor}" and "{Object}", the second
    from the name of an inherited function, which is not a declared
    state. *)
Theorem C8_inherited_read_exceeds_bound :
  well_formed constructor_nfa ∧
  2 ^ length (NFA.states constructor_nfa) - 1 = 1 ∧
  ∃ dfa, convertNFAtoDFA_js 2 constructor_nfa = Some (Ok dfa) ∧
    DFA.states dfa = ["{constructor}"; "{Object}"] ∧
    length (DFA.states dfa) = 2.
Proof.
  split_and!; [|reflexivity|].
  - split; [left|]. intros s symbol d _ _ Hd. vm_compute in Hd.
    by apply elem_of_nil in Hd.
  - eexists. split; [apply constructor_nfa_converted|]. by simpl.
Qed.

(** ** What the code does when no name is an inherited one *)

(** [convertNFAtoDFA] returns [dfa] on [nfa], its loop ending in state
    [st], with the reads and writes of the code: it does so whenever as many
    iterations are allowed as the DFA has states, is out of fuel with fewer,
    and neither throws nor leaves the model. *)
Definition converts_js (nfa : NFA.t) (st : LoopState) (dfa : DFA.t) : Prop :=
  dfa = to_DFA nfa st ∧
  ∀ fuel,
    run_js fuel nfa =
      Some (if decide (length (DFA.states dfa) ≤ fuel) then Ok st
            else OutOfFuel) ∧
    convertNFAtoDFA_js fuel nfa =
      Some (if decide (length (DFA.states dfa) ≤ fuel) then Ok dfa
            else OutOfFuel).

Lemma converts_js_plain nfa st dfa :
  no_inherited_names nfa → converts nfa st dfa → converts_js nfa st dfa.
Proof.
  intros Hn [-> H]. split; [done|]. intros fuel.
  destruct (convertNFAtoDFA_js_plain nfa fuel Hn) as [-> ->].
  by destruct (H fuel) as [-> ->].
Qed.

Lemma nextStates_js_recorded nfa st dfa key v symbol :
  no_inherited_names nfa → converts nfa st dfa →
  Map_get (dfaStates st) key = Some v → symbol ∈ NFA.alphabet nfa →
  nextStates_js nfa v symbol = Some (nextStates nfa v symbol).
Proof.
  intros [Hs Ha] Hc Hv Hsym.
  destruct (converts_Inv nfa st dfa Hc) as (HI & _).
  destruct (inv_entries _ _ _ HI key v (Map_get_Some_elem _ _ _ Hv))
    as (_ & _ & _ & HU).
  apply (on_symbol_js_plain nfa key v st symbol); [|by apply Ha].
  intros s Hin. by apply Hs, HU.
Qed.

(** X1: when neither the start state, nor a destination, nor a symbol of
    the alphabet is the name of a property of [Object.prototype], the loop
    of [convertNFAtoDFA] runs exactly once for each state of the DFA it
    returns: there is a DFA that is returned whenever at least that many
    iterations are allowed, while fewer run out; no run throws a
    [TypeError], that is, [dfaStates.get] always finds the dequeued key,
    and no read finds an inherited property. *)
Theorem X1_one_iteration_per_state (nfa : NFA.t) :
  no_inherited_names nfa →
  ∃ dfa, ∀ fuel,
    convertNFAtoDFA_js fuel nfa =
      Some (if decide (length (DFA.states dfa) ≤ fuel) then Ok dfa
            else OutOfFuel).
Proof.
  intros Hn. destruct (converts_exists nfa) as (st & dfa & Hc).
  exists dfa. intros fuel.
  by destruct (converts_js_plain nfa st dfa Hn Hc) as [_ H], (H fuel).
Qed.

Lemma X1_one_iteration_per_state_witness :
  ∃ dfa, ∀ fuel,
    convertNFAtoDFA_js fuel example_nfa =
      Some (if decide (length (DFA.states dfa) ≤ fuel) then Ok dfa
            else OutOfFuel).
Proof. exact (X1_one_iteration_per_state example_nfa example_no_inherited). Defined.

(** X2: when no state the conversion can meet and no symbol is the name of
    a property of [Object.prototype], the transitions of the returned DFA
    are exactly these: every state of the DFA has an entry, no other key has
    one, and the entry of a state with recorded array [v] maps a symbol of
    the alphabet to the canonical key of the epsilon-closure of the
    destinations of [v], as the code reads them, when that closure is not
    empty, and has nothing for it when the closure is empty, and nothing
    for a symbol outside the alphabet. *)
Theorem X2_transitions_exact (nfa : NFA.t) :
  no_inherited_names nfa →
  ∃ st dfa, converts_js nfa st dfa ∧
    (∀ key, is_Some (DFA.transitions dfa !! key) ↔ key ∈ DFA.states dfa) ∧
    ∀ key, key ∈ DFA.states dfa →
      ∃ v m, Map_get (dfaStates st) key = Some v ∧
             DFA.transitions dfa !! key = Some m ∧
             ∀ symbol,
               (symbol ∈ NFA.alphabet nfa →
                ∃ next, nextStates_js nfa v symbol = Some next ∧
                        m !! symbol =
                          if decide (next = []) then None
                          else Some (stateSetToString next)) ∧
               (symbol ∉ NFA.alphabet nfa → m !! symbol = None).
Proof.
  intros Hn.
  destruct (table_transitions_exact nfa) as (st & dfa & Hc & Hdom & Hm).
  exists st, dfa. split_and!; [by apply converts_js_plain|done|].
  intros key Hkey. destruct (Hm key Hkey) as (v & m & Hv & Hk & Hsym).
  exists v, m. split_and!; [done..|]. intros symbol. split.
  - intros Hin. exists (nextStates nfa v symbol).
    split; [by eapply nextStates_js_recorded|].
    rewrite Hsym. destruct (decide (nextStates nfa v symbol = [])) as [E|E].
    + rewrite decide_False; [done|]. by intros [_ ?].
    + by rewrite decide_True.
  - intros Hout. rewrite Hsym. rewrite decide_False; [done|]. by intros [? _].
Qed.

Lemma X2_transitions_exact_witness :
  ∃ st dfa, converts_js example_nfa st dfa ∧
    ∀ key, is_Some (DFA.transitions dfa !! key) ↔ key ∈ DFA.states dfa.
Proof.
  destruct (X2_transitions_exact example_nfa example_no_inherited)
    as (st & dfa & Hc & Hdom & _).
  by exists st, dfa.
Defined.

(** X10: when neither the start state, nor a destination, nor a symbol is
    the name of a property of [Object.prototype], and neither the start
    state nor any destination contains a comma, the returned DFA accepts
    exactly the words over the alphabet that the NFA accepts. *)
Theorem X10_same_language (nfa : NFA.t) :
  no_inherited_names nfa →
  (∀ x, x ∈ mentioned nfa → has_comma x = false) →
  ∃ st dfa, converts_js nfa st dfa ∧
    ∀ w, (∀ a, a ∈ w → a ∈ NFA.alphabet nfa) →
         dfa_accepts dfa w ↔ nfa_accepts nfa w.
Proof.
  intros Hn Hcomma.
  destruct (table_same_language nfa Hcomma) as (st & dfa & Hc & Hw).
  exists st, dfa. split; [by apply converts_js_plain|done].
Qed.

Lemma X10_same_language_witness :
  ∃ st dfa, converts_js example_nfa st dfa ∧
    ∀ w, (∀ a, a ∈ w → a ∈ NFA.alphabet example_nfa) →
         dfa_accepts dfa w ↔ nfa_accepts example_nfa w.
Proof.
  exact (X10_same_language example_nfa example_no_inherited example_comma_free).
Defined.

(** X18: when no state the conversion can meet and no symbol is the name
    of a property of [Object.prototype], the states of the returned DFA are
    listed in the order of their discovery: every state after the first has
    a transition into it from a state that stands before it in the list. *)
Theorem X18_states_in_discovery_order (nfa : NFA.t) :
  no_inherited_names nfa →
  ∃ st dfa, converts_js nfa st dfa ∧
    ∀ i key, DFA.states dfa !! S i = Some key →
      ∃ j key0, j ≤ i ∧ DFA.states dfa !! j = Some key0 ∧
                edge (DFA.transitions dfa) key0 key.
Proof.
  intros Hn.
  destruct (table_states_in_discovery_order nfa) as (st & dfa & Hc & H).
  exists st, dfa. split; [by apply converts_js_plain|done].
Qed.

Lemma X18_states_in_discovery_order_witness :
  ∃ st dfa, converts_js example_nfa st dfa ∧
    ∀ i key, DFA.states dfa !! S i = Some key →
      ∃ j key0, j ≤ i ∧ DFA.states dfa !! j = Some key0 ∧
                edge (DFA.transitions dfa) key0 key.
Proof.
  exact (X18_states_in_discovery_order example_nfa example_no_inherited).
Defined.

(** X19: when no state the conversion can meet and no symbol is the name
    of a property of [Object.prototype], the conversion also ends on an NFA
    whose start state or destinations are not declared: with [n] the number
    of distinct states among the start state and the destinations of all
    moves, the returned DFA has at most [2 ^ n - 1] states, and every
    recorded array consists of such states. *)
Theorem X19_size_without_declarations (nfa : NFA.t) :
  no_inherited_names nfa →
  ∃ st dfa, converts_js nfa st dfa ∧
    length (DFA.states dfa) ≤ 2 ^ length (remove_dups (mentioned nfa)) - 1 ∧
    ∀ key v x, Map_get (dfaStates st) key = Some v → x ∈ v →
      x = NFA.startState nfa ∨ x ∈ all_targets (NFA.transitions nfa).
Proof.
  intros Hn.
  destruct (table_size_without_declarations nfa) as (st & dfa & Hc & H).
  exists st, dfa. split; [by apply converts_js_plain|done].
Qed.

(** An NFA whose start state and whose move are not declared. *)
Definition undeclared_nfa : NFA.t :=
  NFA.mk ["q0"] ["a"] (<["p" := <["a" := ["r"]]> ∅]> ∅) "p" ∅.

Lemma undeclared_no_inherited : no_inherited_names undeclared_nfa.
Proof.
  split; apply Forall_forall.
  - apply (bool_decide_unpack
             (Forall (λ s, s ∉ inherited_names) (mentioned undeclared_nfa))).
    vm_compute. exact I.
  - apply (bool_decide_unpack
             (Forall (λ a, a ∉ inherited_names) (NFA.alphabet undeclared_nfa))).
    vm_compute. exact I.
Qed.

Lemma X19_size_without_declarations_witness :
  ∃ st dfa, converts_js undeclared_nfa st dfa ∧
    length (DFA.states dfa) ≤
      2 ^ length (remove_dups (mentioned undeclared_nfa)) - 1.
Proof.
  destruct (X19_size_without_declarations undeclared_nfa
              undeclared_no_inherited) as (st & dfa & Hc & Hb & _).
  exists st, dfa. split; [exact Hc|exact Hb].
Defined.

(** X20: when neither the start state, nor a destination, nor a symbol is
    the name of a property of [Object.prototype], the conversion returns a
    DFA, and every key in the states list of the returned DFA is reachable
    from its start state along zero or more entries of its transitions. *)
Theorem X20_plain_names_reachability (nfa : NFA.t) :
  no_inherited_names nfa →
  (∃ fuel dfa, convertNFAtoDFA_js fuel nfa = Some (Ok dfa)) ∧
  ∀ fuel dfa, convertNFAtoDFA_js fuel nfa = Some (Ok dfa) →
    ∀ key, key ∈ DFA.states dfa →
      reachable (DFA.transitions dfa) (DFA.startState dfa) key.
Proof.
  intros Hn. destruct (table_reachability nfa) as [(fuel & dfa & He) Hr].
  split.
  - exists fuel, dfa.
    by rewrite (proj2 (convertNFAtoDFA_js_plain nfa fuel Hn)), He.
  - intros fuel' dfa' H.
    rewrite (proj2 (convertNFAtoDFA_js_plain nfa fuel' Hn)) in H.
    injection H as H. by apply (Hr fuel').
Qed.

Lemma X20_plain_names_reachability_witness :
  reachable (DFA.transitions example_dfa) (DFA.startState example_dfa)
    "{q0,q1,q2}".
Proof.
  apply (proj2 (X20_plain_names_reachability example_nfa example_no_inherited)
           3 example_dfa example_nfa_js).
  right. right. left.
Defined.



(** X22: on a well-formed NFA in which neither the start state, nor a
    destination, nor a symbol is the name of a property of
    [Object.prototype], the loop of [convertNFAtoDFA] ends within
    [2 ^ |states| - 1] iterations and returns a DFA with at most that many
    states, none repeated. *)
Theorem X22_plain_names_termination (nfa : NFA.t) :
  well_formed nfa → no_inherited_names nfa →
  let bound := 2 ^ length (NFA.states nfa) - 1 in
  ∃ dfa, convertNFAtoDFA_js bound nfa = Some (Ok dfa) ∧
         length (DFA.states dfa) ≤ bound ∧ NoDup (DFA.states dfa).
Proof.
  intros Hwf Hn bound.
  destruct (table_termination nfa Hwf) as [(dfa & Hc & Hb) _].
  exists dfa. split; [|done].
  rewrite (proj2 (convertNFAtoDFA_js_plain nfa bound Hn)). f_equal. exact Hc.
Qed.

Lemma X22_plain_names_termination_witness :
  ∃ dfa, convertNFAtoDFA_js (2 ^ 3 - 1) example_nfa = Some (Ok dfa) ∧
         length (DFA.states dfa) ≤ 2 ^ 3 - 1 ∧ NoDup (DFA.states dfa).
Proof.
  exact (X22_plain_names_termination example_nfa example_well_formed
           example_no_inherited).
Defined.

(** ** The form handler on plain objects *)

(** The body of [transitionInput.forEach((tr) => ...)] with the reads and
    writes of the code.  With fewer than three pieces [nextStates] is
    [undefined] and [nextStates.split] throws.  When the state is the name
    of an inherited property and not yet an own key, [transitions[state]]
    is an inherited function or [Object.prototype] itself, no object is
    created, and the write lands on that inherited value; when the symbol is
    "__proto__", the write runs the inherited setter and replaces the
    prototype of the table of the state.  In both cases the run leaves this
    model. *)
Definition add_transition_js (T : Transitions) (tr : string)
  : option (result Transitions) :=
  match split "-" tr with
  | state :: symbol :: nextStates :: _ =>
      if bool_decide (state ∈ inherited_names)
         && negb (bool_decide (is_Some (T !! state))) then None
      else if String.eqb symbol "__proto__" then None
      else Some (Ok (<[state := <[symbol := trim <$> split "," nextStates]>
                                  (default ∅ (T !! state))]> T))
  | _ => Some TypeError
  end.

Fixpoint forEach_transition_js (T : Transitions) (trs : list string)
  : option (result Transitions) :=
  match trs with
  | [] => Some (Ok T)
  | tr :: rest =>
      match add_transition_js T tr with
      | Some (Ok T') => forEach_transition_js T' rest
      | other => other
      end
  end.

Definition parse_transitions_js (text : string) : option (result Transitions) :=
  forEach_transition_js ∅ (split ";" text).

Definition parse_form_js (f : Form) : option (result NFA.t) :=
  let states := trim <$> split "," (states_value f) in
  let alphabet := trim <$> split "," (alphabet_value f) in
  match parse_transitions_js (transitions_value f) with
  | Some (Ok transitions) =>
      Some (Ok (NFA.mk states alphabet transitions
                  (trim (start_state_value f))
                  (list_to_set (trim <$> split "," (accept_states_value f)))))
  | Some TypeError => Some TypeError
  | Some OutOfFuel => Some OutOfFuel
  | None => None
  end.

(** The handler up to the DFA. *)
Definition submit_js (fuel : nat) (f : Form) : option (result DFA.t) :=
  match parse_form_js f with
  | Some (Ok nfa) => convertNFAtoDFA_js fuel nfa
  | Some TypeError => Some TypeError
  | Some OutOfFuel => Some OutOfFuel
  | None => None
  end.

(** A piece of the transitions text whose state is not the name of an
    inherited property and whose symbol is not "__proto__"; a piece with
    fewer than three parts is plain. *)
Definition plain_piece (tr : string) : bool :=
  match split "-" tr with
  | state :: symbol :: _ :: _ =>
      negb (bool_decide (state ∈ inherited_names))
      && negb (String.eqb symbol "__proto__")
  | _ => true
  end.

Definition plain_text (text : string) : Prop :=
  ∀ tr, tr ∈ split ";" text → plain_piece tr = true.

Definition example_form : Form :=
  mkForm "q0, q1, q2" "a,b" "q0-a-q0,q1;q0-b-q0;q1-a-q2" " q0 " "q2".

Example parse_example_form_js : parse_form_js example_form = Some (Ok example_nfa).
Proof. vm_compute. reflexivity. Qed.

Example submit_example_form_js : submit_js 3 example_form = Some (Ok example_dfa).
Proof. vm_compute. reflexivity. Qed.

(** A piece whose state is "__proto__" writes to [Object.prototype]. *)
Example proto_piece_is_outside :
  parse_transitions_js "q0-b-q0;__proto__-a-q1" = None.
Proof. vm_compute. reflexivity. Qed.

(** A piece with fewer than three parts throws, whatever its state. *)
Example short_piece_throws :
  parse_transitions_js "q0-b-q0;constructor-a" = Some TypeError.
Proof. vm_compute. reflexivity. Qed.

Lemma add_transition_js_plain T tr :
  plain_piece tr = true → add_transition_js T tr = Some (add_transition T tr).
Proof.
  unfold plain_piece, add_transition_js, add_transition.
  destruct (split "-" tr) as [|state [|symbol [|nextStates extra]]]; try done.
  intros [H1 H2]%andb_prop. apply negb_true_iff in H1, H2.
  by rewrite H1, H2.
Qed.

Lemma forEach_transition_js_plain trs : ∀ T,
  (∀ tr, tr ∈ trs → plain_piece tr = true) →
  forEach_transition_js T trs = Some (forEach_transition T trs).
Proof.
  induction trs as [|tr trs IH]; intros T H; simpl; [done|].
  rewrite add_transition_js_plain by (apply H; left).
  destruct (add_transition T tr) as [T'| |]; try done.
  apply IH. intros tr' Hin. apply H. by right.
Qed.

Lemma parse_form_js_plain f :
  plain_text (transitions_value f) →
  parse_transitions_js (transitions_value f) =
    Some (parse_transitions (transitions_value f)) ∧
  parse_form_js f = Some (parse_form f).
Proof.
  intros H.
  assert (parse_transitions_js (transitions_value f) =
          Some (parse_transitions (transitions_value f))) as Ht
    by by apply forEach_transition_js_plain.
  split; [done|]. unfold parse_form_js, parse_form. rewrite Ht.
  by destruct (parse_transitions _).
Qed.

Lemma example_plain_text : plain_text (transitions_value example_form).
Proof.
  unfold plain_text. apply Forall_forall.
  apply (bool_decide_unpack
           (Forall (λ tr, plain_piece tr = true)
              (split ";" (transitions_value example_form)))).
  vm_compute. exact I.
Qed.

Lemma dests_own (T : Transitions) s a ds :
  dests T s a = ds → ds ≠ [] → get_transitions T s a = Own_array ds.
Proof.
  unfold dests, get_transitions. intros H Hne.
  destruct (T !! s) as [m|]; simpl in H; [|by subst].
  destruct (m !! a) as [ds'|]; simpl in H; by subst.
Qed.

Lemma dests_not_defined (T : Transitions) s a :
  parsed_shape T → dests T s a = [] →
  s ∉ inherited_names → a ∉ inherited_names →
  get_transitions T s a = Not_defined.
Proof.
  unfold dests, get_transitions. intros Hshape H Hs Ha.
  destruct (T !! s) as [m|] eqn:Hm; simpl in H.
  - destruct (m !! a) as [ds|] eqn:Hds; simpl in H.
    + subst ds. by destruct (proj2 (Hshape s m Hm) a [] Hds) as [? _].
    + by rewrite bool_decide_eq_false_2.
  - by rewrite bool_decide_eq_false_2.
Qed.

(** X12: when no piece of the transitions text has the name of a property
    of [Object.prototype] as its state or "__proto__" as its symbol, the
    handler throws a [TypeError] while building the transitions exactly
    when one of the pieces between semicolons has fewer than two hyphens;
    it does so in particular on an empty transitions text and on one that
    ends with a semicolon, so an NFA without transitions cannot be entered.
    In every other case an NFA is built. *)
Theorem X12_handler_throws (f : Form) :
  plain_text (transitions_value f) →
  (parse_form_js f = Some TypeError ↔
   ∃ tr, tr ∈ split ";" (transitions_value f) ∧ count_char "-" tr < 2) ∧
  (parse_form_js f = Some TypeError ∨ ∃ nfa, parse_form_js f = Some (Ok nfa)) ∧
  (transitions_value f = "" → parse_form_js f = Some TypeError) ∧
  (∀ text, transitions_value f = text +:+ ";" →
           parse_form_js f = Some TypeError).
Proof.
  intros Hp. destruct (parse_form_js_plain f Hp) as [_ ->].
  destruct (table_handler_throws f) as (H1 & H2 & H3 & H4).
  split_and!.
  - rewrite <- H1. split; [by intros [= ->]|by intros ->].
  - destruct H2 as [->|[nfa ->]]; [by left|right; by exists nfa].
  - intros E. by rewrite (H3 E).
  - intros text E. by rewrite (H4 text E).
Qed.

Lemma X12_handler_throws_witness :
  parse_form_js example_form = Some TypeError ∨
  ∃ nfa, parse_form_js example_form = Some (Ok nfa).
Proof.
  exact (proj1 (proj2 (X12_handler_throws example_form example_plain_text))).
Defined.

(** X13: when no piece of the transitions text has the name of a property
    of [Object.prototype] as its state or "__proto__" as its symbol, then
    in the transitions the handler builds, what the conversion reads for a
    state and a symbol is the array of the last piece of the text that
    names this state and this symbol (its third part split at the commas,
    each destination trimmed; the state and the symbol are taken as
    written, not trimmed): a later piece replaces an earlier one, it does
    not add to it.  For a state and a symbol that no piece names, and that
    are not names of inherited properties, the read finds nothing. *)
Theorem X13_last_piece_wins (text : string) (T : Transitions) :
  plain_text text → parse_transitions_js text = Some (Ok T) →
  (∀ before tr after s a ns extra,
     split ";" text = before ++ tr :: after →
     split "-" tr = s :: a :: ns :: extra →
     (∀ tr', tr' ∈ after → take 2 (split "-" tr') ≠ [s; a]) →
     get_transitions T s a = Own_array (trim <$> split "," ns)) ∧
  (∀ s a,
     (∀ tr, tr ∈ split ";" text → take 2 (split "-" tr) ≠ [s; a]) →
     s ∉ inherited_names → a ∉ inherited_names →
     get_transitions T s a = Not_defined).
Proof.
  intros Hp H. unfold parse_transitions_js in H.
  rewrite forEach_transition_js_plain in H by done. injection H as H.
  destruct (table_last_piece_wins text T H) as [H1 H2]. split.
  - intros before tr after s a ns extra Htext Hs Hno.
    apply dests_own; [by eapply H1|apply trimmed_pieces].
  - intros s a Hno Hs Ha. apply dests_not_defined; [|by apply H2|done..].
    apply (forEach_transition_shape _ _ _ H). intros s' m.
    by rewrite lookup_empty.
Qed.

Lemma later_piece_plain : plain_text "q0-a-q1;q0-a- q2 ".
Proof.
  unfold plain_text. apply Forall_forall.
  apply (bool_decide_unpack
           (Forall (λ tr, plain_piece tr = true)
              (split ";" "q0-a-q1;q0-a- q2 "))).
  vm_compute. exact I.
Qed.

Lemma X13_last_piece_wins_witness :
  get_transitions (<["q0" := <["a" := ["q2"]]> ∅]> ∅) "q0" "a" =
    Own_array ["q2"] ∧
  get_transitions (<["q0" := <["a" := ["q2"]]> ∅]> ∅) " q0" "a" = Not_defined.
Proof.
  destruct (X13_last_piece_wins "q0-a-q1;q0-a- q2 "
              (<["q0" := <["a" := ["q2"]]> ∅]> ∅) later_piece_plain eq_refl)
    as [H1 H2].
  split.
  - apply (H1 ["q0-a-q1"] "q0-a- q2 " [] "q0" "a" " q2 " []); try done.
    by intros tr' ?%elem_of_nil.
  - apply H2.
    + intros tr Htr. simpl in Htr.
      rewrite !elem_of_cons, elem_of_nil in Htr.
      destruct Htr as [->|[->|[]]]; done.
    + apply (bool_decide_unpack (" q0" ∉ inherited_names)). vm_compute. exact I.
    + apply (bool_decide_unpack ("a" ∉ inherited_names)). vm_compute. exact I.
Defined.

(** X16: when no piece of the transitions text has the name of a property
    of [Object.prototype] as its state or "__proto__" as its symbol, and in
    the NFA that is built neither the start state, nor a destination, nor a
    symbol is such a name, then up to the DFA the handler can fail in one
    way only: either the transitions text makes it throw, whatever the
    number of iterations allowed, or an NFA is built and the conversion
    returns a DFA as soon as it is allowed one iteration for each state of
    that DFA. *)
Theorem X16_handler_outcome (f : Form) :
  plain_text (transitions_value f) →
  (∀ nfa, parse_form_js f = Some (Ok nfa) → no_inherited_names nfa) →
  (parse_form_js f = Some TypeError ∧
   ∀ fuel, submit_js fuel f = Some TypeError) ∨
  (∃ nfa dfa, parse_form_js f = Some (Ok nfa) ∧
     ∀ fuel, submit_js fuel f =
       Some (if decide (length (DFA.states dfa) ≤ fuel) then Ok dfa
             else OutOfFuel)).
Proof.
  intros Hp Hn. unfold submit_js.
  destruct (parse_form_js_plain f Hp) as [_ Hf]. rewrite Hf in *.
  destruct (table_handler_outcome f) as [[Ht _]|(nfa & dfa & Ht & _)];
    rewrite Ht in *.
  - by left.
  - right. specialize (Hn nfa eq_refl).
    destruct (converts_exists nfa) as (st & dfa' & Hc).
    exists nfa, dfa'. split; [done|]. intros fuel.
    by destruct (converts_js_plain nfa st dfa' Hn Hc) as [_ H], (H fuel).
Qed.

Lemma example_form_no_inherited :
  ∀ nfa, parse_form_js example_form = Some (Ok nfa) → no_inherited_names nfa.
Proof.
  intros nfa H. rewrite parse_example_form_js in H. injection H as <-.
  apply example_no_inherited.
Qed.

Lemma X16_handler_outcome_witness :
  (parse_form_js example_form = Some TypeError ∧
   ∀ fuel, submit_js fuel example_form = Some TypeError) ∨
  (∃ nfa dfa, parse_form_js example_form = Some (Ok nfa) ∧
     ∀ fuel, submit_js fuel example_form =
       Some (if decide (length (DFA.states dfa) ≤ fuel) then Ok dfa
             else OutOfFuel)).
Proof.
  exact (X16_handler_outcome example_form example_plain_text
           example_form_no_inherited).
Defined.

(** X17: when no piece of the transitions text has the name of a property
    of [Object.prototype] as its state or "__proto__" as its symbol, and in
    the NFA that is built neither the start state, nor a destination, nor a
    symbol is such a name, then for a start state without a comma the DFA
    the handler obtains accepts exactly the words over the alphabet that
    the NFA accepts: the destinations in the text are split at the commas,
    so no state the conversion meets contains one. *)
Theorem X17_handler_same_language (f : Form) (nfa : NFA.t) :
  plain_text (transitions_value f) →
  parse_form_js f = Some (Ok nfa) → no_inherited_names nfa →
  has_comma (start_state_value f) = false →
  ∃ dfa,
    (∀ fuel, submit_js fuel f =
       Some (if decide (length (DFA.states dfa) ≤ fuel) then Ok dfa
             else OutOfFuel)) ∧
    ∀ w, (∀ a, a ∈ w → a ∈ NFA.alphabet nfa) →
         dfa_accepts dfa w ↔ nfa_accepts nfa w.
Proof.
  intros Hp Hf Hn Hstart.
  destruct (parse_form_js_plain f Hp) as [_ Hf']. rewrite Hf' in Hf.
  injection Hf as Hf.
  destruct (table_handler_same_language f nfa Hf Hstart) as (dfa & Hs & Hw).
  exists dfa. split; [|done]. intros fuel. unfold submit_js.
  rewrite Hf', Hf, (proj2 (convertNFAtoDFA_js_plain nfa fuel Hn)).
  f_equal. specialize (Hs fuel). unfold submit in Hs. by rewrite Hf in Hs.
Qed.

Lemma X17_handler_same_language_witness :
  ∃ dfa,
    (∀ fuel, submit_js fuel example_form =
       Some (if decide (length (DFA.states dfa) ≤ fuel) then Ok dfa
             else OutOfFuel)) ∧
    ∀ w, (∀ a, a ∈ w → a ∈ NFA.alphabet example_nfa) →
         dfa_accepts dfa w ↔ nfa_accepts example_nfa w.
Proof.
  exact (X17_handler_same_language example_form example_nfa example_plain_text
           parse_example_form_js example_no_inherited eq_refl).
Defined.
